(** * isochrones.mist.isochrone: the MIST isochrone engine

    A shallow embedding of [isochrones/mist/isochrone.py] and the properties
    its specification states about it.

    Conventions of the embedding.
    - A float64 is read as the real number it stands for, [Num r], or as
      [NaN], which stands for every value that is not a finite real (the
      missing-value sentinel [np.nan], and the results numpy gives outside the
      real domain of an operation).  Rounding is not modelled.
    - A raised exception is a value [Raise e] of the [result] type; [try] /
      [except] is a match on it.
    - The modules the file imports are interfaces: [astropy] (which may be
      absent), [..extinction] and [.utils].
    - A dict is an association list in insertion order, a numpy array is a
      nested list, and the engine object is a record that methods receive as
      [self]. *)

From Stdlib Require Import Reals Lra Lia ZArith.
From stdpp Require Import base option list strings.

(** ** Floats *)

Inductive float : Type :=
| Num (r : R)
| NaN.

#[global] Instance R_eq_dec : EqDecision R := Req_dec_T.
#[global] Instance Rlt_decision (x y : R) : Decision (x < y)%R := Rlt_dec x y.
#[global] Instance Rle_decision (x y : R) : Decision (x <= y)%R := Rle_dec x y.

#[global] Instance float_eq_dec : EqDecision float.
Proof.
  intros [x|] [y|].
  - destruct (decide (x = y)) as [->|Hne]; [left; reflexivity|right; congruence].
  - right; discriminate.
  - right; discriminate.
  - left; reflexivity.
Defined.

Definition lift2 (op : R -> R -> R) (x y : float) : float :=
  match x, y with
  | Num a, Num b => Num (op a b)
  | _, _ => NaN
  end.

Definition fadd : float -> float -> float := lift2 Rplus.
Definition fsub : float -> float -> float := lift2 Rminus.
Definition fmul : float -> float -> float := lift2 Rmult.

(** Division: a zero divisor gives a non-finite value. *)
Definition fdiv (x y : float) : float :=
  match x, y with
  | Num a, Num b => if decide (b = 0%R) then NaN else Num (a / b)
  | _, _ => NaN
  end.

(** [np.sqrt]: not a number below zero. *)
Definition np_sqrt (x : float) : float :=
  match x with
  | Num a => if decide (a < 0)%R then NaN else Num (sqrt a)
  | NaN => NaN
  end.

(** [np.log10] of a Python scalar: finite on the positive reals only. *)
Definition np_log10 (x : R) : float :=
  if decide (0 < x)%R then Num (ln x / ln 10) else NaN.

(** [10**x]. *)
Definition pow10 (x : float) : float :=
  match x with
  | Num a => Num (Rpower 10 a)
  | NaN => NaN
  end.

(** Comparisons: false as soon as one side is not a number. *)
Definition flt (x y : float) : Prop :=
  match x, y with
  | Num a, Num b => (a < b)%R
  | _, _ => False
  end.

Definition fle (x y : float) : Prop :=
  match x, y with
  | Num a, Num b => (a <= b)%R
  | _, _ => False
  end.

#[global] Instance flt_dec (x y : float) : Decision (flt x y).
Proof. destruct x, y; simpl; apply _. Defined.

#[global] Instance fle_dec (x y : float) : Decision (fle x y).
Proof. destruct x, y; simpl; apply _. Defined.

(** What an interpolation returns: a scalar, or a one-dimensional array. *)
Inductive value : Type :=
| Scalar (x : float)
| Array (xs : list float).

(** Broadcasting of a float function and of the addition of a scalar. *)
Definition vmap (f : float -> float) (v : value) : value :=
  match v with
  | Scalar x => Scalar (f x)
  | Array xs => Array (f <$> xs)
  end.

Definition vadd (v : value) (x : float) : value := vmap (fun y => fadd y x) v.

(** ** Exceptions *)

Inductive exn : Type :=
| KeyError
| IndexError
| ValueError
| TypeError
| NameError.

Inductive result (A : Type) : Type :=
| Ok (a : A)
| Raise (e : exn).

Arguments Ok {A} a.
Arguments Raise {A} e.

#[global] Instance result_ret : MRet result := @Ok.

#[global] Instance result_bind : MBind result :=
  fun A B f m => match m with Ok a => f a | Raise e => Raise e end.

#[global] Instance result_fmap : FMap result :=
  fun A B f m => match m with Ok a => Ok (f a) | Raise e => Raise e end.

(** [l[i]] on a list: IndexError out of range. *)
Definition getitem {A : Type} (l : list A) (i : nat) : result A :=
  match l !! i with
  | Some x => Ok x
  | None => Raise IndexError
  end.

(** A [for] loop whose body may raise. *)
Fixpoint for_ {A B : Type} (xs : list B) (body : B -> A -> result A) (s : A)
  : result A :=
  match xs with
  | [] => Ok s
  | x :: xs' => s' ← body x s; for_ xs' body s'
  end.

(** ** Dicts *)

Definition dict (V : Type) : Type := list (string * V).

Definition dict_get {V : Type} (d : dict V) (k : string) : result V :=
  match list_find (fun kv => kv.1 = k) d with
  | Some (_, kv) => Ok kv.2
  | None => Raise KeyError
  end.

(** [d[k] = v]: an existing key keeps its place, a new one goes last. *)
Fixpoint dict_set {V : Type} (d : dict V) (k : string) (v : V) : dict V :=
  match d with
  | [] => [(k, v)]
  | (k', v') :: d' =>
      if decide (k' = k) then (k, v) :: d' else (k', v') :: dict_set d' k v
  end.

Definition dict_items {V : Type} (d : dict V) : list (string * V) := d.

(** ** Module constants (lines 4-14) *)

Module astropy.
Record constants : Type := {
  G_cgs_value : R;
  M_sun_cgs_value : R;
  R_sun_cgs_value : R
}.
(** The import succeeds with the constants, or raises ImportError. *)
Class t : Type := import : option constants.
End astropy.

Section constants.
Context {astropy_module : astropy.t}.

Definition G : R :=
  match astropy.import with
  | Some const => astropy.G_cgs_value const
  | None => 6.67e-11
  end.

Definition MSUN : R :=
  match astropy.import with
  | Some const => astropy.M_sun_cgs_value const
  | None => 1.99e33
  end.

Definition RSUN : R :=
  match astropy.import with
  | Some const => astropy.R_sun_cgs_value const
  | None => 6.96e10
  end.

End constants.

(** The values the specification gives for the fallback, and what it means by
    "approximately": within one percent. *)
Definition approx (x y : R) : Prop := (Rabs (x - y) <= Rabs y / 100)%R.

(** ** The model table *)

(** A row carries its two labels and its cells in column order.  The table is
    indexed by [feh, age], and the labels are the row's [feh] and
    [log10_isochrone_age_yr] columns: a value of this type is a table that
    has these two columns, so a table of at least two columns.  On a table
    without one of them lines 32-33 raise AttributeError and no engine is
    made; such a table is no value of the type. *)
Record row : Type := {
  feh : float;
  log10_isochrone_age_yr : float;
  values : list float
}.

Record DataFrame : Type := {
  columns : nat;
  rows : list row
}.

(** Every row of a DataFrame has one cell per column. *)
Definition rectangular (d : DataFrame) : Prop :=
  Forall (fun r => length (values r) = columns d) (rows d).

(** [Series.unique()]: the distinct values in order of appearance; pandas
    does not sort. *)
Section unique.
Context {A : Type} `{EqDecision A}.

Definition unique_step (seen : list A) (x : A) : list A :=
  if decide (x ∈ seen) then seen else seen ++ [x].

Definition unique (l : list A) : list A := foldl unique_step [] l.

End unique.

(** The rows labelled (f, a), in table order. *)
Definition track (d : DataFrame) (f a : float) : list row :=
  filter (fun r => feh r = f /\ log10_isochrone_age_yr r = a) (rows d).

(** [df.index], the (feh, age) labels of the rows, and
    [df.index.is_unique]: no label repeats. *)
Definition index (d : DataFrame) : list (float * float) :=
  (fun r => (feh r, log10_isochrone_age_yr r)) <$> rows d.

Definition is_unique (d : DataFrame) : Prop := NoDup (index d).

#[global] Instance is_unique_dec (d : DataFrame) : Decision (is_unique d).
Proof. unfold is_unique; apply _. Defined.

(** What a selection by a complete label returns: on an index with a
    repeated label a DataFrame, the sub-table of the rows that carry the
    label; on a unique index the one row, as a Series. *)
Inductive selection : Type :=
| Frame (rs : list row)
| Series (r : row).

(** [df.ix[f, a]]; a label pair that no row carries is a KeyError. *)
Definition ix (d : DataFrame) (f a : float) : result selection :=
  match track d f a with
  | [] => Raise KeyError
  | r :: rs => if decide (is_unique d) then Ok (Series r)
               else Ok (Frame (r :: rs))
  end.

(** [len(x)]: the number of rows of a DataFrame, the number of cells of a
    Series. *)
Definition len (x : selection) : nat :=
  match x with
  | Frame rs => length rs
  | Series r => length (values r)
  end.

(** A numpy array of floats of two dimensions or of one. *)
Inductive ndarray : Type :=
| Matrix (m : list (list float))
| Vector (v : list float).

(** [x.values]: the rows of a DataFrame, the cells of a Series. *)
Definition selection_values (x : selection) : ndarray :=
  match x with
  | Frame rs => Matrix (values <$> rs)
  | Series r => Vector (values r)
  end.

(** Every pair of a metallicity and an age of the table labels some row. *)
Definition complete (d : DataFrame) : Prop :=
  forall f a : float,
    f ∈ feh <$> rows d -> a ∈ log10_isochrone_age_yr <$> rows d ->
    track d f a <> [].

Definition strictly_increasing (l : list float) : Prop :=
  forall (i j : nat) (x y : float),
    l !! i = Some x -> l !! j = Some y -> i < j -> flt x y.

(** ** Arrays *)

Definition array4 : Type := list (list (list (list float))).

Definition np_zeros (n1 n2 n3 n4 : nat) : array4 :=
  replicate n1 (replicate n2 (replicate n3 (replicate n4 (Num 0)))).

(** [.T] of a two-dimensional array given as a list of rows. *)
Definition np_T (a : list (list nat)) : list (list nat) :=
  (fun j => (fun r => default 0%nat (r !! j)) <$> a)
    <$> seq 0 (length (default [] (head a))).

(** [a.max()]: ValueError on an array without elements. *)
Definition amax (a : list (list nat)) : result nat :=
  match mjoin a with
  | [] => Raise ValueError
  | ns => Ok (max_list ns)
  end.

Definition getitem2 {A : Type} (a : list (list A)) (j i : nat) : result A :=
  r ← getitem a j; getitem r i.

(** numpy's broadcasting of a source to a two-dimensional target.  Along
    the columns: a row of the target takes a source row of its width, or
    repeats the one cell of a source row of width one. *)
Definition broadcast_row (t s : list float) : result (list float) :=
  if decide (length s = length t) then Ok s
  else match s with
       | [x] => Ok (replicate (length t) x)
       | _ => Raise ValueError
       end.

(** Along the rows: the source has as many rows as the target, or its one
    row is repeated on every row of the target; a one-dimensional source
    counts as one row.  Anything else is a ValueError.  (The lists keep no
    width for a target without rows, on which nothing is checked.) *)
Definition broadcast (target : list (list float)) (src : ndarray)
  : result (list (list float)) :=
  let m := match src with Matrix m => m | Vector v => [v] end in
  if decide (length m = length target)
  then mapM (fun ts : list float * list float => broadcast_row ts.1 ts.2)
            (zip target m)
  else match m with
       | [s] => mapM (fun t => broadcast_row t s) target
       | _ => Raise ValueError
       end.

(** [data[j, i, :N, :] = vals] *)
Definition setitem_head (data : array4) (j i N : nat) (vals : ndarray)
  : result array4 :=
  plane ← getitem data j;
  track ← getitem plane i;
  head ← broadcast (take N track) vals;
  Ok (<[j := <[i := head ++ drop N track]> plane]> data).

(** [data[j, i, N:, :] = np.nan] *)
Definition setitem_tail_nan (data : array4) (j i N : nat) : result array4 :=
  plane ← getitem data j;
  track ← getitem plane i;
  Ok (<[j := <[i := take N track
                     ++ ((fun r => replicate (length r) NaN) <$> drop N track)]>
              plane]> data).

(** ** Imported modules *)

Module extinction.
Class t : Type := {
  EXTINCTION : string -> R;
  LAMBDA_EFF : string -> R;
  extcurve : R -> R -> R;
  extcurve_0 : R -> R
}.
End extinction.

Module utils.
Class t : Type := {
  interp_value :
    R -> R -> R -> nat -> array4 -> nat -> list float -> list float
    -> list (list nat) -> result float;
  interp_values :
    list R -> list R -> list R -> nat -> array4 -> nat -> list float
    -> list float -> list (list nat) -> result (list float)
}.
End utils.

(** ** The engine object *)

(** The lambda of line 46.  Its free variable [i] belongs to the frame of the
    dict comprehension: the closure holds the address of that frame's cell,
    not a value. *)
Record mag_lambda : Type := { free_i : nat }.

(** The [fn] of lines 80-90: its free variable [band] is the argument of the
    [_mag_fn] call that made it, and the default of [ext_table] was
    evaluated by that call. *)
Record mag_fn : Type := {
  fn_band : string;
  fn_ext_table : bool
}.

(** The attributes that [__init__] sets, and [cells], the variables that the
    closures stored in [_mag] share with the frame that made them. *)
Record MIST_Isochrone : Type := {
  df : DataFrame;
  ext_table : bool;
  mass_col : nat;
  Ncols : nat;
  fehs : list float;
  ages : list float;
  Nfeh : nat;
  Nage : nat;
  _grid : option array4;
  _grid_Ns : option (list (list nat));
  bands : list string;
  _mag_cols : dict nat;
  cells : list (option nat);
  _mag : dict mag_lambda;
  mag : dict mag_fn
}.

Definition set_ext_table (self : MIST_Isochrone) (v : bool) : MIST_Isochrone :=
  {| df := df self; ext_table := v; mass_col := mass_col self;
     Ncols := Ncols self; fehs := fehs self; ages := ages self;
     Nfeh := Nfeh self; Nage := Nage self; _grid := _grid self;
     _grid_Ns := _grid_Ns self; bands := bands self;
     _mag_cols := _mag_cols self; cells := cells self; _mag := _mag self;
     mag := mag self |}.

Definition set__grid (self : MIST_Isochrone) (data : array4)
  (lens : list (list nat)) : MIST_Isochrone :=
  {| df := df self; ext_table := ext_table self; mass_col := mass_col self;
     Ncols := Ncols self; fehs := fehs self; ages := ages self;
     Nfeh := Nfeh self; Nage := Nage self; _grid := Some data;
     _grid_Ns := Some lens; bands := bands self;
     _mag_cols := _mag_cols self; cells := cells self; _mag := _mag self;
     mag := mag self |}.

(** Line 46-47: [{b: lambda m,a,f: self.interp_value(m,a,f,icol=i)
    for b,i in self._mag_cols.items()}].  The comprehension's frame is
    entered once, so there is one cell for [i]; every iteration assigns it
    and makes a lambda that refers to it.  [heap] holds the cells that
    closures refer to, by address; the items come in the order the dict
    iterates, its insertion order. *)
Definition mag_comprehension_step (c : nat)
  (st : list (option nat) * dict mag_lambda) (item : string * nat)
  : list (option nat) * dict mag_lambda :=
  (<[c := Some item.2]> st.1, dict_set st.2 item.1 {| free_i := c |}).

Definition mag_comprehension (items : list (string * nat))
  (heap : list (option nat)) : list (option nat) * dict mag_lambda :=
  let c := length heap in
  foldl (mag_comprehension_step c) (heap ++ [None], []) items.

Definition set_mag (self : MIST_Isochrone) (d : dict mag_fn) : MIST_Isochrone :=
  {| df := df self; ext_table := ext_table self; mass_col := mass_col self;
     Ncols := Ncols self; fehs := fehs self; ages := ages self;
     Nfeh := Nfeh self; Nage := Nage self; _grid := _grid self;
     _grid_Ns := _grid_Ns self; bands := bands self;
     _mag_cols := _mag_cols self; cells := cells self; _mag := _mag self;
     mag := d |}.

(** Line 79-91: [_mag_fn(band)] returns the closure [fn]; the default
    [ext_table=self.ext_table] is evaluated here, when [fn] is defined. *)
Definition _mag_fn (self : MIST_Isochrone) (band : string) : mag_fn :=
  {| fn_band := band; fn_ext_table := ext_table self |}.

(** Line 23-48, on a table that has the columns [feh] and
    [log10_isochrone_age_yr] (see [row]).  [self0] is the object as it stands
    before line 48, which calls [self._mag_fn] once per band.  Lines 51-56
    are [init_ranges] below. *)
Definition __init__ (df0 : DataFrame) (ext_table0 : bool) : MIST_Isochrone :=
  let fehs0 := unique (feh <$> rows df0) in
  let ages0 := unique (log10_isochrone_age_yr <$> rows df0) in
  let mag_cols0 : dict nat :=
    [("u", 7); ("g", 8); ("r", 9); ("i", 10); ("z", 11)]%string in
  let comp := mag_comprehension (dict_items mag_cols0) [] in
  let self0 :=
    {| df := df0;
       ext_table := ext_table0;
       mass_col := 2;
       Ncols := columns df0;
       fehs := fehs0;
       ages := ages0;
       Nfeh := length fehs0;
       Nage := length ages0;
       _grid := None;
       _grid_Ns := None;
       bands := ["u"; "g"; "r"; "i"; "z"]%string;
       _mag_cols := mag_cols0;
       cells := comp.1;
       _mag := comp.2;
       mag := [] |} in
  set_mag self0
    (foldl (fun d b => dict_set d b (_mag_fn self0 b)) [] (bands self0)).

(** Line 106-119. *)
Definition _make_grid (self : MIST_Isochrone) : result MIST_Isochrone :=
  df_list ← mapM (fun a => mapM (fun f => ix (df self) f a) (fehs self))
                 (ages self);
  lensT ← mapM (fun i =>
                  mapM (fun j => len <$> getitem2 df_list i j)
                       (seq 0 (Nfeh self)))
               (seq 0 (Nage self));
  let lens := np_T lensT in
  L ← amax lens;
  let data := np_zeros (Nfeh self) (Nage self) L (Ncols self) in
  data ← for_ (seq 0 (Nage self)) (fun i =>
           for_ (seq 0 (Nfeh self)) (fun j data =>
             N ← getitem2 lens j i;
             track ← getitem2 df_list i j;
             data ← setitem_head data j i N (selection_values track);
             setitem_tail_nan data j i N)) data;
  Ok (set__grid self data lens).

(** Line 94-104: the [grid] and [grid_Ns] properties build the grid when the
    cache is empty.  The value they give is modelled; the table and the axes
    never change, so the cached value is the one [_make_grid] gives. *)
Definition grid (self : MIST_Isochrone) : result array4 :=
  match _grid self with
  | Some g => Ok g
  | None =>
      self' ← _make_grid self;
      match _grid self' with Some g => Ok g | None => Raise TypeError end
  end.

Definition grid_Ns (self : MIST_Isochrone) : result (list (list nat)) :=
  match _grid_Ns self with
  | Some ns => Ok ns
  | None =>
      self' ← _make_grid self;
      match _grid_Ns self' with Some ns => Ok ns | None => Raise TypeError end
  end.

Section engine.
Context {astropy_module : astropy.t} {extinction_module : extinction.t}
  {utils_module : utils.t}.

(** Line 121-132, for scalar mass, age and feh: [np.atleast_1d] of a scalar
    is the one-element array. *)
Definition interp_value (self : MIST_Isochrone) (mass age feh : R) (icol : nat)
  : result value :=
  match
    g ← grid self;
    ns ← grid_Ns self;
    utils.interp_value mass age feh icol g (mass_col self) (ages self)
      (fehs self) ns
  with
  | Ok v => Ok (Scalar v)
  | Raise _ =>
      g ← grid self;
      ns ← grid_Ns self;
      Array <$> utils.interp_values [mass] [age] [feh] icol g (mass_col self)
                  (ages self) (fehs self) ns
  end.

(** Line 58-68. *)
Definition logTeff (self : MIST_Isochrone) (mass age feh : R) : result value :=
  interp_value self mass age feh 3.

Definition logg (self : MIST_Isochrone) (mass age feh : R) : result value :=
  interp_value self mass age feh 4.

Definition logL (self : MIST_Isochrone) (mass age feh : R) : result value :=
  interp_value self mass age feh 5.

Definition Z_surf (self : MIST_Isochrone) (mass age feh : R) : result value :=
  interp_value self mass age feh 6.

(** A call with the argument tuple unpacked, for a method of three positional
    parameters. *)
Definition splat (method : R -> R -> R -> result value) (args : list R)
  : result value :=
  match args with
  | [m; a; f] => method m a f
  | _ => Raise TypeError
  end.

(** Line 76-77. *)
Definition mass (self : MIST_Isochrone) (args : list R) : result R :=
  getitem args 0.

(** Line 70-71. *)
Definition radius (self : MIST_Isochrone) (args : list R) : result value :=
  m ← mass self args;
  g ← splat (logg self) args;
  Ok (vmap (fun g => fdiv (np_sqrt (fdiv (Num (G * m * MSUN)) (pow10 g)))
                          (Num RSUN)) g).

(** Line 73-74. *)
Definition Teff (self : MIST_Isochrone) (args : list R) : result value :=
  vmap pow10 <$> splat (logTeff self) args.

(** A call of one of the lambdas of [self._mag]: [i] is read from its cell
    when the body runs. *)
Definition call_lambda (self : MIST_Isochrone) (lam : mag_lambda)
  (m a f : R) : result value :=
  match cells self !! free_i lam with
  | Some (Some i) => interp_value self m a f i
  | _ => Raise NameError
  end.

(** Line 80-90: the body of [fn]; an omitted keyword argument is [None]. *)
Definition extinction_A (band : string) (AV x_ext : R) (ext_table : bool) : R :=
  let ext :=
    if decide (x_ext = 0%R) then extinction.extcurve_0
    else extinction.extcurve x_ext in
  if ext_table then (AV * extinction.EXTINCTION band)%R
  else (AV * ext (extinction.LAMBDA_EFF band))%R.

Definition distance_modulus (distance : R) : float :=
  fsub (fmul (Num 5) (np_log10 distance)) (Num 5).

Definition call_fn (self : MIST_Isochrone) (fn : mag_fn) (mass age feh : R)
  (distance AV x_ext : option R) (ext_table : option bool) : result value :=
  let distance := default 10%R distance in
  let AV := default 0%R AV in
  let x_ext := default 0%R x_ext in
  let ext_table := default (fn_ext_table fn) ext_table in
  let A := extinction_A (fn_band fn) AV x_ext ext_table in
  let dm := distance_modulus distance in
  lam ← dict_get (_mag self) (fn_band fn);
  v ← call_lambda self lam mass age feh;
  Ok (vadd (vadd v dm) (Num A)).

(** [self.mag[b](mass, age, feh, ...)] *)
Definition mag_call (self : MIST_Isochrone) (b : string) (mass age feh : R)
  (distance AV x_ext : option R) (ext_table : option bool) : result value :=
  fn ← dict_get (mag self) b;
  call_fn self fn mass age feh distance AV x_ext ext_table.

(** [self._mag[b](mass, age, feh)]: the intrinsic-magnitude term. *)
Definition _mag_call (self : MIST_Isochrone) (b : string) (mass age feh : R)
  : result value :=
  lam ← dict_get (_mag self) b;
  call_lambda self lam mass age feh.

End engine.

(** ** The interpolation helpers of [.utils] *)

Module spec.

(** Modelled from the spec: "lies between Axis[lo] and Axis[hi]", for the
    bracketing step of [utils.interp_value]. *)
Definition between (x : R) (p : float * float) : Prop :=
  fle p.1 (Num x) /\ fle (Num x) p.2.

#[global] Instance between_dec (x : R) (p : float * float)
  : Decision (between x p).
Proof. unfold between; apply _. Defined.

(** Modelled from the spec: the bracketing step of [utils.interp_value],
    which is not in the source tree.  "Locate the bracketing pair of
    axis indices (lo, hi) such that the query lies between Axis[lo] and
    Axis[hi]": the first pair of adjacent indices that does.  Of the two
    boundary policies the spec mentions, the one of its failure mode and of
    its design notes is taken: beyond the axis there is no pair, and no
    clamping. *)
Definition bracket (axis : list float) (x : R) : option (nat * nat) :=
  (fun found => (found.1, S found.1))
    <$> list_find (between x) (zip axis (tail axis)).

(** Modelled from the spec: linear interpolation "using the ratio of
    distances", for [utils.interp_value]. *)
Definition lerp (x0 x1 y0 y1 : float) (x : R) : float :=
  fadd y0 (fmul (fsub y1 y0) (fdiv (fsub (Num x) x0) (fsub x1 x0))).

(** Modelled from the spec: a read of the grid or of an axis by
    [utils.interp_value]; the spec gives the interpolator no outcome but a
    value or the sentinel, so a read out of range is the sentinel. *)
Definition cell (r : list float) (c : nat) : float := default NaN (r !! c).

(** Modelled from the spec: step 3 of [utils.interp_value].  Within the
    track of one corner, among its valid rows (the Length Table bounds
    them), the two adjacent rows that bracket the query mass are located and
    the column is interpolated between them; outside the track's mass range
    the corner is the sentinel. *)
Definition corner (grid : array4) (grid_Ns : list (list nat))
  (mass_col icol j i : nat) (mass : R) : float :=
  let track := default [] (grid !! j ≫= fun plane => plane !! i) in
  let N := default 0%nat (grid_Ns !! j ≫= fun ns => ns !! i) in
  let valid := take N track in
  let masses := (fun r => cell r mass_col) <$> valid in
  let ys := (fun r => cell r icol) <$> valid in
  match bracket masses mass with
  | Some (k, k') =>
      lerp (cell masses k) (cell masses k') (cell ys k) (cell ys k') mass
  | None => NaN
  end.

(** Modelled from the spec: section 4.2, the scalar interpolator
    [utils.interp_value], which is not in the source tree.  Steps 1 and 2
    bracket metallicity and age; without bracketing indices the result is
    the sentinel.  Step 4 blends the four corners with bilinear weights, and
    a sentinel corner makes the result the sentinel.  It never raises. *)
Definition interp_value (mass age feh : R) (icol : nat) (grid : array4)
  (mass_col : nat) (ages fehs : list float) (grid_Ns : list (list nat))
  : result float :=
  match bracket fehs feh, bracket ages age with
  | Some (j0, j1), Some (i0, i1) =>
      let tf := fdiv (fsub (Num feh) (cell fehs j0))
                     (fsub (cell fehs j1) (cell fehs j0)) in
      let ta := fdiv (fsub (Num age) (cell ages i0))
                     (fsub (cell ages i1) (cell ages i0)) in
      let v00 := corner grid grid_Ns mass_col icol j0 i0 mass in
      let v01 := corner grid grid_Ns mass_col icol j0 i1 mass in
      let v10 := corner grid grid_Ns mass_col icol j1 i0 mass in
      let v11 := corner grid grid_Ns mass_col icol j1 i1 mass in
      let one := Num 1 in
      Ok (fadd (fadd (fmul (fmul (fsub one tf) (fsub one ta)) v00)
                     (fmul (fmul (fsub one tf) ta) v01))
               (fadd (fmul (fmul tf (fsub one ta)) v10)
                     (fmul (fmul tf ta) v11)))
  | _, _ => Ok NaN
  end.

(** Modelled from the spec: section 4.3, the vector interpolator
    [utils.interp_values], which is not in the source tree.  Sequences of
    different lengths are an error; otherwise each output element is what
    the scalar interpolator gives for that query. *)
Definition interp_values (mass age feh : list R) (icol : nat) (grid : array4)
  (mass_col : nat) (ages fehs : list float) (grid_Ns : list (list nat))
  : result (list float) :=
  if decide (length mass = length age /\ length age = length feh)
  then mapM (fun q : R * R * R =>
               interp_value q.1.1 q.1.2 q.2 icol grid mass_col ages fehs
                 grid_Ns)
            (zip (zip mass age) feh)
  else Raise ValueError.

(** Modelled from the spec: the [.utils] module, made of the two
    interpolators above. *)
Definition utils : utils.t :=
  {| utils.interp_value := interp_value;
     utils.interp_values := interp_values |}.

End spec.

(** ** Closed forms

    What the loops of [_make_grid] compute, written without loops, and the
    vocabulary of the statements below. *)

(** [x] occurs in [l] before every occurrence of [y]. *)
Definition appears_before {A : Type} (l : list A) (x y : A) : Prop :=
  exists k : nat, l !! k = Some x /\ forall k' : nat, l !! k' = Some y -> k < k'.

(** The axis lists the values of the column in their order of first
    appearance. *)
Definition in_order_of_appearance {A : Type} (axis col : list A) : Prop :=
  forall (i j : nat) (x y : A),
    axis !! i = Some x -> axis !! j = Some y -> i < j -> appears_before col x y.

(** A two-dimensional array given by its cells. *)
Definition tab {T : Type} (n m : nat) (c : nat -> nat -> T) : list (list T) :=
  (fun j => c j <$> seq 0 m) <$> seq 0 n.

Definition fupd {T : Type} (c : nat -> nat -> T) (j i : nat) (t : T)
  : nat -> nat -> T :=
  fun j' i' => if decide (j' = j /\ i' = i) then t else c j' i'.

(** What [df.ix[f, a]] returns when it returns, and the rows that the
    assignment of line 115 writes for it: the rows of a DataFrame, or the
    row of a Series once per cell of it. *)
Definition selected (d : DataFrame) (f a : float) : selection :=
  match track d f a with
  | r :: rs => if decide (is_unique d) then Series r else Frame (r :: rs)
  | [] => Frame []
  end.

Definition written (x : selection) : list (list float) :=
  match x with
  | Frame rs => values <$> rs
  | Series r => replicate (length (values r)) (values r)
  end.

(** The Length Table and the padded Grid of a table, for given axes. *)
Definition track_lens (d : DataFrame) (fs as_ : list float) : list (list nat) :=
  (fun f => (fun a => len (selected d f a)) <$> as_) <$> fs.

Definition padded_track (L ncols : nat) (x : selection) : list (list float) :=
  written x ++ replicate (L - len x) (replicate ncols NaN).

Definition padded_grid (d : DataFrame) (fs as_ : list float) (L ncols : nat)
  : array4 :=
  (fun f => (fun a => padded_track L ncols (selected d f a)) <$> as_) <$> fs.

(** The states of the array between two iterations of the loops: the cells
    of the ages below [i], and at age [i] those of the metallicities below
    [j], are filled; the others still hold zeros. *)
Definition zeros (L ncols : nat) : list (list float) :=
  replicate L (replicate ncols (Num 0)).

Definition stage (d : DataFrame) (fs as_ : list float) (L ncols : nat)
  (i j : nat) : nat -> nat -> list (list float) :=
  fun j' i' =>
    if decide (i' < i \/ (i' = i /\ j' < j))
    then padded_track L ncols
           (selected d (default NaN (fs !! j')) (default NaN (as_ !! i')))
    else zeros L ncols.


(** The query lies beyond the axis: below every value of it, or above every
    value of it. *)
Definition beyond (axis : list float) (x : R) : Prop :=
  (forall r : R, Num r ∈ axis -> (x < r)%R)
  \/ (forall r : R, Num r ∈ axis -> (r < x)%R).

(** [df.iloc[:, c]] *)
Definition iloc_col (d : DataFrame) (c : nat) : list float :=
  (fun r => default NaN (values r !! c)) <$> rows d.

(** ** Stand-ins and tables used as examples *)

(** A stand-in for [.utils] whose interpolation returns the number of the
    column it is asked for, and one for [..extinction]. *)
Definition utils_icol : utils.t :=
  {| utils.interp_value := fun _ _ _ icol _ _ _ _ _ => Ok (Num (INR icol));
     utils.interp_values := fun ms _ _ icol _ _ _ _ _ =>
                              Ok ((fun _ => Num (INR icol)) <$> ms) |}.

Definition extinction_demo : extinction.t :=
  {| extinction.EXTINCTION := fun _ => 1%R;
     extinction.LAMBDA_EFF := fun _ => 5000%R;
     extinction.extcurve := fun x lam => (x + 1)%R;
     extinction.extcurve_0 := fun lam => 1%R |}.

(** Two rows whose metallicities appear in decreasing order. *)
Definition df_descending : DataFrame :=
  {| columns := 3;
     rows := [ {| feh := Num 0; log10_isochrone_age_yr := Num 9;
                  values := [Num 0; Num 9; Num 1] |};
               {| feh := Num (-0.5); log10_isochrone_age_yr := Num 9;
                  values := [Num (-0.5); Num 9; Num 1] |} ] |}.

(** Two tracks of one age, of three and of two rows; the columns are feh,
    age, mass, logTeff and logg. *)
Definition df_demo : DataFrame :=
  {| columns := 5;
     rows := [ {| feh := Num (-0.5); log10_isochrone_age_yr := Num 9;
                  values := [Num (-0.5); Num 9; Num 0.8; Num 3.7; Num 4.6] |};
               {| feh := Num (-0.5); log10_isochrone_age_yr := Num 9;
                  values := [Num (-0.5); Num 9; Num 1; Num 3.8; Num 4.4] |};
               {| feh := Num (-0.5); log10_isochrone_age_yr := Num 9;
                  values := [Num (-0.5); Num 9; Num 1.2; Num 3.85; Num 4.2] |};
               {| feh := Num 0; log10_isochrone_age_yr := Num 9;
                  values := [Num 0; Num 9; Num 0.8; Num 3.68; Num 4.6] |};
               {| feh := Num 0; log10_isochrone_age_yr := Num 9;
                  values := [Num 0; Num 9; Num 1; Num 3.75; Num 4.5] |} ] |}.

(** Two tracks; the pairs (-0.5, 9.5) and (0, 9) label no row. *)
Definition df_gap : DataFrame :=
  {| columns := 5;
     rows := [ {| feh := Num (-0.5); log10_isochrone_age_yr := Num 9;
                  values := [Num (-0.5); Num 9; Num 0.8; Num 3.7; Num 4.6] |};
               {| feh := Num (-0.5); log10_isochrone_age_yr := Num 9;
                  values := [Num (-0.5); Num 9; Num 1; Num 3.8; Num 4.4] |};
               {| feh := Num 0; log10_isochrone_age_yr := Num 9.5;
                  values := [Num 0; Num 9.5; Num 0.8; Num 3.7; Num 4.6] |};
               {| feh := Num 0; log10_isochrone_age_yr := Num 9.5;
                  values := [Num 0; Num 9.5; Num 1; Num 3.75; Num 4.5] |} ] |}.

(** ** The rest of the module

    The statements of [__init__] after line 48, the two cached properties with
    their write to the cache, and vocabulary for the properties of the last
    part. *)

(** [a.min()] and [a.max()] of a numpy array, as lines 51-52 and 55-56 call
    them on the axes: ValueError on an array without elements, and [np.nan]
    as soon as an element is [np.nan].  The entries of the table are read as
    finite values or [np.nan]. *)
Definition fmin (x y : float) : float :=
  match x, y with
  | Num a, Num b => Num (Rmin a b)
  | _, _ => NaN
  end.

Definition fmax (x y : float) : float :=
  match x, y with
  | Num a, Num b => Num (Rmax a b)
  | _, _ => NaN
  end.

Definition np_min (a : list float) : result float :=
  match a with
  | [] => Raise ValueError
  | x :: a' => Ok (foldl fmin x a')
  end.

Definition np_max (a : list float) : result float :=
  match a with
  | [] => Raise ValueError
  | x :: a' => Ok (foldl fmax x a')
  end.

(** [s.min()] and [s.max()] of a pandas Series, as lines 53-54 call them on
    the mass column: the entries that are [np.nan] are skipped, and the result
    is [np.nan] when nothing is left. *)
Definition finite (s : list float) : list R :=
  omap (fun x => match x with Num r => Some r | NaN => None end) s.

Definition series_min (s : list float) : float :=
  match finite s with
  | [] => NaN
  | x :: xs => Num (foldl Rmin x xs)
  end.

Definition series_max (s : list float) : float :=
  match finite s with
  | [] => NaN
  | x :: xs => Num (foldl Rmax x xs)
  end.

(** [df.iloc[:, c]]: IndexError when the table has no column [c]. *)
Definition iloc (d : DataFrame) (c : nat) : result (list float) :=
  if decide (c < columns d) then Ok (iloc_col d c) else Raise IndexError.

(** Lines 51-56, the end of [__init__]: the six range attributes.  They are
    computed after the attributes of [MIST_Isochrone] above are set, and an
    exception here makes the construction fail. *)
Record ranges : Type := {
  minage : float;
  maxage : float;
  minmass : float;
  maxmass : float;
  minfeh : float;
  maxfeh : float
}.

Definition init_ranges (self : MIST_Isochrone) : result ranges :=
  minage0 ← np_min (ages self);
  maxage0 ← np_max (ages self);
  minmass0 ← series_min <$> iloc (df self) (mass_col self);
  maxmass0 ← series_max <$> iloc (df self) (mass_col self);
  minfeh0 ← np_min (fehs self);
  maxfeh0 ← np_max (fehs self);
  Ok {| minage := minage0; maxage := maxage0; minmass := minmass0;
        maxmass := maxmass0; minfeh := minfeh0; maxfeh := maxfeh0 |}.

(** Lines 94-104 with the write to the cache: the value of the property and
    the engine after the access. *)
Definition grid_property (self : MIST_Isochrone)
  : result (array4 * MIST_Isochrone) :=
  match _grid self with
  | Some g => Ok (g, self)
  | None =>
      self' ← _make_grid self;
      match _grid self' with
      | Some g => Ok (g, self')
      | None => Raise TypeError
      end
  end.

Definition grid_Ns_property (self : MIST_Isochrone)
  : result (list (list nat) * MIST_Isochrone) :=
  match _grid_Ns self with
  | Some ns => Ok (ns, self)
  | None =>
      self' ← _make_grid self;
      match _grid_Ns self' with
      | Some ns => Ok (ns, self')
      | None => Raise TypeError
      end
  end.

(** The floats of a value. *)
Definition value_elems (v : value) : list float :=
  match v with
  | Scalar x => [x]
  | Array xs => xs
  end.

(** The column never decreases from one row to the next. *)
Definition non_decreasing (l : list float) : Prop :=
  forall (i j : nat) (x y : float),
    l !! i = Some x -> l !! j = Some y -> i < j -> fle x y.

(** * Properties *)

(** ** Floats and exceptions *)

Lemma Num_inj (a b : R) : Num a = Num b -> a = b.
Proof. intros [= ->]. reflexivity. Qed.

(** Equations between concrete floats, settled by real arithmetic. *)
Ltac float_lra :=
  repeat match goal with H : Num _ = Num _ |- _ => apply Num_inj in H end;
  lra.

Lemma fmul_NaN (x : float) : fmul x NaN = NaN.
Proof. destruct x; reflexivity. Qed.

Lemma Ok_bind {A B : Type} (a : A) (k : A -> result B) : Ok a ≫= k = k a.
Proof. reflexivity. Qed.

Lemma bind_Ok {A B : Type} (m : result A) (k : A -> result B) (b : B) :
  m ≫= k = Ok b <-> exists a, m = Ok a /\ k a = Ok b.
Proof.
  destruct m as [a|e]; cbn.
  - split; [intros H; exists a; auto|intros (a' & [= ->] & H); exact H].
  - split; [discriminate|intros (a' & [=] & _)].
Qed.

Lemma mapM_Ok {A B : Type} (f : A -> result B) (g : A -> B) (l : list A) :
  (forall x, x ∈ l -> f x = Ok (g x)) -> mapM f l = Ok (g <$> l).
Proof.
  induction l as [|x l IH]; intros Hf; [reflexivity|].
  cbn. rewrite Hf by left. cbn. rewrite IH; [reflexivity|].
  intros y Hy. apply Hf. right. exact Hy.
Qed.

Lemma mapM_Ok_inv {A B : Type} (f : A -> result B) (l : list A) (ys : list B) :
  mapM f l = Ok ys -> Forall2 (fun x y => f x = Ok y) l ys.
Proof.
  revert ys. induction l as [|x l IH]; intros ys.
  - intros [= <-]. constructor.
  - cbn. intros (y & Hy & (k & Hk & [= <-])%bind_Ok)%bind_Ok.
    constructor; auto.
Qed.

Lemma mapM_seq {A B : Type} (l : list A) (f : nat -> result B) (g : A -> B)
  (k : nat) :
  (forall i x, l !! i = Some x -> f (k + i) = Ok (g x)) ->
  mapM f (seq k (length l)) = Ok (g <$> l).
Proof.
  revert k. induction l as [|x l IH]; intros k Hf; [reflexivity|].
  cbn [length seq mapM]. rewrite <- (Nat.add_0_r k) at 1.
  rewrite (Hf 0 x eq_refl), Ok_bind.
  rewrite (IH (S k)); [reflexivity|].
  intros i y Hy. rewrite <- (Hf (S i) y Hy). f_equal. lia.
Qed.

(** mapM stops at the first exception. *)
Lemma mapM_Raise {A B : Type} (f : A -> result B) (l : list A) (e : exn) :
  (forall x, x ∈ l -> f x = Raise e \/ exists y, f x = Ok y) ->
  (exists x, x ∈ l /\ f x = Raise e) ->
  mapM f l = Raise e.
Proof.
  induction l as [|x l IH]; intros Hall (x0 & Hx0 & Hfail).
  - inversion Hx0.
  - cbn [mapM]. destruct (Hall x ltac:(left)) as [Hx|[y Hy]].
    + rewrite Hx. reflexivity.
    + rewrite Hy, Ok_bind. rewrite IH; [reflexivity| |].
      * intros z Hz. apply Hall. right. exact Hz.
      * apply elem_of_cons in Hx0 as [->|Hx0]; [congruence|].
        exists x0. split; assumption.
Qed.

Lemma getitem_Ok {A : Type} (l : list A) (i : nat) (x : A) :
  getitem l i = Ok x <-> l !! i = Some x.
Proof.
  unfold getitem. destruct (l !! i); split; congruence.
Qed.

Lemma getitem2_Ok {A : Type} (a : list (list A)) (j i : nat) (x : A) :
  getitem2 a j i = Ok x <-> exists r, a !! j = Some r /\ r !! i = Some x.
Proof.
  unfold getitem2. rewrite bind_Ok. setoid_rewrite getitem_Ok. reflexivity.
Qed.

(** The rule for a counting loop with an invariant. *)
Lemma for_seq_invariant {S : Type} (I : nat -> S -> Prop)
  (body : nat -> S -> result S) (n m : nat) (s : S) :
  I m s ->
  (forall k s, m <= k < m + n -> I k s ->
               exists s', body k s = Ok s' /\ I (Datatypes.S k) s') ->
  exists s', for_ (seq m n) body s = Ok s' /\ I (m + n) s'.
Proof.
  revert m s. induction n as [|n IH]; intros m s Hs Hbody.
  - exists s. rewrite Nat.add_0_r. split; [reflexivity|exact Hs].
  - destruct (Hbody m s ltac:(lia) Hs) as (s1 & Hs1 & HI1).
    destruct (IH (Datatypes.S m) s1 HI1) as (s2 & Hs2 & HI2).
    { intros k s' Hk. apply Hbody. lia. }
    exists s2. cbn. rewrite Hs1. cbn. split; [exact Hs2|].
    replace (m + Datatypes.S n) with (Datatypes.S m + n) by lia. exact HI2.
Qed.

Lemma log10_100 : np_log10 100 = Num 2.
Proof.
  unfold np_log10. rewrite decide_True by lra. f_equal.
  replace 100%R with (10 * 10)%R by lra.
  assert (0 < ln 10)%R. { rewrite <- ln_1. apply ln_increasing; lra. }
  rewrite ln_mult by lra. field. lra.
Qed.

Lemma distance_modulus_100 : distance_modulus 100 = Num 5.
Proof. unfold distance_modulus. rewrite log10_100. cbn. f_equal. lra. Qed.

Lemma vadd_vadd (v : value) (x y : R) :
  vadd (vadd v (Num x)) (Num y) = vadd v (Num (x + y)).
Proof.
  destruct v as [[r|]|xs]; cbn.
  - f_equal. f_equal. lra.
  - reflexivity.
  - f_equal. rewrite <- list_fmap_compose. apply list_fmap_ext.
    intros _ [r|] _; cbn; [f_equal; lra|reflexivity].
Qed.

(** ** Module constants *)

(** C2 (the code departs from the claim): without astropy the fallback is
    G = 6.67e-11, the SI value, a factor 1000 below the CGS value 6.67e-8 of
    the claim; the solar mass and the solar radius fall back to the CGS values
    of the claim. *)
Lemma fallback_constants :
  G (astropy_module := None) = 6.67e-11%R
  /\ ~ approx (G (astropy_module := None)) 6.67e-8
  /\ approx (MSUN (astropy_module := None)) 1.99e33
  /\ approx (RSUN (astropy_module := None)) 6.96e10.
Proof.
  unfold G, MSUN, RSUN, approx, astropy.import.
  repeat split.
  - intros H. rewrite Rabs_left in H by lra. rewrite Rabs_right in H by lra. lra.
  - rewrite Rminus_diag, Rabs_R0. rewrite Rabs_right by lra. lra.
  - rewrite Rminus_diag, Rabs_R0. rewrite Rabs_right by lra. lra.
Qed.

(** ** The axes *)

Section unique_facts.
Context {A : Type} `{EqDecision A}.
Implicit Types (l seen : list A) (x : A).

Lemma unique_snoc l x : unique (l ++ [x]) = unique_step (unique l) x.
Proof. unfold unique. apply foldl_snoc. Qed.

Lemma elem_of_unique_step seen x y :
  y ∈ unique_step seen x <-> y ∈ seen \/ y = x.
Proof.
  unfold unique_step. case_decide.
  - split; [auto|]. intros [?| ->]; assumption.
  - rewrite elem_of_app, list_elem_of_singleton. reflexivity.
Qed.

Lemma NoDup_unique_step seen x : NoDup seen -> NoDup (unique_step seen x).
Proof.
  intros Hnd. unfold unique_step. case_decide; [assumption|].
  apply NoDup_app. split_and!; [assumption| |apply NoDup_singleton].
  intros y Hy ->%list_elem_of_singleton. contradiction.
Qed.

Lemma elem_of_unique l y : y ∈ unique l <-> y ∈ l.
Proof.
  induction l as [|x l IH] using rev_ind.
  - reflexivity.
  - rewrite unique_snoc, elem_of_unique_step, IH, elem_of_app,
      list_elem_of_singleton. reflexivity.
Qed.

Lemma NoDup_unique l : NoDup (unique l).
Proof.
  induction l as [|x l IH] using rev_ind.
  - apply NoDup_nil_2.
  - rewrite unique_snoc. apply NoDup_unique_step, IH.
Qed.

Lemma unique_step_new seen x :
  x ∉ seen -> unique_step seen x = seen ++ [x].
Proof. intros Hx. unfold unique_step. rewrite decide_False by exact Hx. reflexivity. Qed.

Lemma unique_nil_inv l :
  unique l = [] -> l = [].
Proof.
  destruct l as [|x l]; [reflexivity|]. intros Hu.
  assert (Hx : x ∈ unique (x :: l)) by (apply elem_of_unique; left).
  rewrite Hu in Hx. inversion Hx.
Qed.

Lemma appears_before_snoc (l : list A) (x y z : A) :
  appears_before l x y -> appears_before (l ++ [z]) x y.
Proof.
  intros (k & Hk & Hy). exists k.
  pose proof (lookup_lt_Some _ _ _ Hk) as Hlt.
  split; [rewrite lookup_app_l by exact Hlt; exact Hk|].
  intros k' Hk'. destruct (decide (k' < length l)) as [Hin|Hout].
  - apply Hy. rewrite lookup_app_l in Hk' by exact Hin. exact Hk'.
  - lia.
Qed.

Lemma unique_order (l : list A) (i j : nat) (x y : A) :
  unique l !! i = Some x -> unique l !! j = Some y -> i < j ->
  appears_before l x y.
Proof.
  revert i j x y. induction l as [|z l IH] using rev_ind; intros i j x y Hx Hy Hij.
  - discriminate.
  - rewrite unique_snoc in Hx, Hy. unfold unique_step in Hx, Hy.
    destruct (decide (z ∈ unique l)) as [Hz|Hz].
    + apply appears_before_snoc. eapply IH; eassumption.
    + destruct (decide (j < length (unique l))) as [Hj|Hj].
      * rewrite lookup_app_l in Hx by lia. rewrite lookup_app_l in Hy by exact Hj.
        apply appears_before_snoc. eapply IH; eassumption.
      * pose proof (lookup_lt_Some _ _ _ Hy) as Hjlt.
        rewrite length_app in Hjlt. cbn in Hjlt.
        assert (j = length (unique l)) as -> by lia.
        rewrite lookup_app_l in Hx by exact Hij.
        rewrite list_lookup_middle in Hy by reflexivity. injection Hy as <-.
        assert (Hxl : x ∈ l).
        { apply elem_of_unique. eapply list_elem_of_lookup_2, Hx. }
        apply list_elem_of_lookup in Hxl as [k Hk]. exists k.
        pose proof (lookup_lt_Some _ _ _ Hk) as Hklt.
        split; [rewrite lookup_app_l by exact Hklt; exact Hk|].
        intros k' Hk'. destruct (decide (k' < length l)) as [Hin|Hout]; [|lia].
        rewrite lookup_app_l in Hk' by exact Hin. exfalso. apply Hz.
        apply elem_of_unique. eapply list_elem_of_lookup_2, Hk'.
Qed.

End unique_facts.

Lemma fehs_df_descending :
  fehs (__init__ df_descending false) = [Num 0; Num (-0.5)].
Proof.
  cbn -[unique]. unfold unique. cbn [foldl].
  rewrite (unique_step_new []) by (intros H; inversion H). cbn [app].
  rewrite unique_step_new; [reflexivity|].
  rewrite list_elem_of_singleton. intros H. float_lra.
Qed.

(** C3 (as amended): the two axes hold the distinct metallicities and the
    distinct log-ages of the table, without duplicates, in their order of
    first appearance in the table, and Nfeh and Nage are their lengths.
    They are not sorted. *)
Theorem axes_distinct_in_order_of_appearance (df0 : DataFrame) (e : bool) :
  let self := __init__ df0 e in
  (NoDup (fehs self)
   /\ (forall x, x ∈ fehs self <-> x ∈ feh <$> rows df0)
   /\ in_order_of_appearance (fehs self) (feh <$> rows df0)
   /\ Nfeh self = length (fehs self))
  /\ (NoDup (ages self)
      /\ (forall x, x ∈ ages self <-> x ∈ log10_isochrone_age_yr <$> rows df0)
      /\ in_order_of_appearance (ages self)
           (log10_isochrone_age_yr <$> rows df0)
      /\ Nage self = length (ages self)).
Proof.
  cbn -[unique]. split; split_and!;
    auto using NoDup_unique, elem_of_unique;
    intros i j x y; apply unique_order.
Qed.

(** C3 (as stated, refuted): on a table that lists metallicity 0 before
    metallicity -0.5 the metallicity axis is [0, -0.5], which is not
    increasing. *)
Lemma axes_not_increasing :
  ~ strictly_increasing (fehs (__init__ df_descending false)).
Proof.
  intros Hf. specialize (Hf 0 1 (Num 0) (Num (-0.5))).
  rewrite fehs_df_descending in Hf. cbn in Hf.
  specialize (Hf eq_refl eq_refl ltac:(lia)). lra.
Qed.

(** ** The grid builder *)

Lemma ix_Ok (d : DataFrame) (f a : float) (x : selection) :
  ix d f a = Ok x <-> x = selected d f a /\ track d f a <> [].
Proof.
  unfold ix, selected. destruct (track d f a) as [|r t]; split.
  - discriminate.
  - intros [_ H]. contradiction.
  - destruct (decide (is_unique d)); intros [= <-];
      (split; [reflexivity|discriminate]).
  - intros [-> _]. destruct (decide (is_unique d)); reflexivity.
Qed.

Lemma ix_cases (d : DataFrame) (f a : float) :
  ix d f a = Raise KeyError \/ exists x, ix d f a = Ok x.
Proof.
  unfold ix. destruct (track d f a); [left; reflexivity|].
  right. destruct (decide (is_unique d)); eexists; reflexivity.
Qed.

Lemma selected_Frame (d : DataFrame) (f a : float) :
  ~ is_unique d -> selected d f a = Frame (track d f a).
Proof.
  intros Hd. unfold selected. destruct (track d f a); [reflexivity|].
  rewrite decide_False by exact Hd. reflexivity.
Qed.


Lemma length_written (x : selection) : length (written x) = len x.
Proof. destruct x; [apply length_fmap|apply length_replicate]. Qed.

Lemma elem_of_written (d : DataFrame) (f a : float) (v : list float) :
  v ∈ written (selected d f a) -> exists r, r ∈ track d f a /\ v = values r.
Proof.
  unfold selected. destruct (track d f a) as [|r rs] eqn:E.
  - intros Hv. inversion Hv.
  - destruct (decide (is_unique d)); cbn [written].
    + intros [-> _]%elem_of_replicate. exists r. split; [left|reflexivity].
    + intros (r' & -> & Hr')%list_elem_of_fmap. exists r'. split; [exact Hr'|reflexivity].
Qed.

Lemma mapM_ix_cases (d : DataFrame) (a : float) (fs : list float) :
  mapM (fun f => ix d f a) fs = Raise KeyError
  \/ exists y, mapM (fun f => ix d f a) fs = Ok y.
Proof.
  induction fs as [|f fs IH]; [right; eexists; reflexivity|].
  cbn [mapM]. destruct (ix_cases d f a) as [->|[rs ->]]; [left; reflexivity|].
  rewrite Ok_bind. destruct IH as [->|[y ->]]; [left; reflexivity|].
  right. eexists. reflexivity.
Qed.

Lemma track_rows (d : DataFrame) (f a : float) (r : row) :
  r ∈ track d f a -> r ∈ rows d.
Proof. unfold track. rewrite list_elem_of_filter. tauto. Qed.

Lemma rectangular_track (d : DataFrame) (f a : float) (r : row) :
  rectangular d -> r ∈ track d f a -> length (values r) = columns d.
Proof.
  intros Hrect Hr. unfold rectangular in Hrect. rewrite Forall_forall in Hrect.
  apply Hrect. eapply track_rows, Hr.
Qed.

Lemma track_nonempty (d : DataFrame) (r : row) :
  r ∈ rows d -> track d (feh r) (log10_isochrone_age_yr r) <> [].
Proof.
  intros Hr Hnil.
  assert (Hin : r ∈ track d (feh r) (log10_isochrone_age_yr r)).
  { unfold track. apply list_elem_of_filter. auto. }
  rewrite Hnil in Hin. inversion Hin.
Qed.

Lemma row_insert {T : Type} m (r : nat -> T) i t :
  <[i := t]> (r <$> seq 0 m)
  = (fun i' => if decide (i' = i) then t else r i') <$> seq 0 m.
Proof.
  apply list_eq. intros k.
  destruct (decide (k < m)) as [Hk|Hk].
  - rewrite list_lookup_fmap, lookup_seq_lt by exact Hk. cbn.
    destruct (decide (k = i)) as [->|Hne].
    + rewrite list_lookup_insert_eq; [reflexivity|].
      rewrite length_fmap, length_seq. exact Hk.
    + rewrite list_lookup_insert_ne by congruence.
      rewrite list_lookup_fmap, lookup_seq_lt by exact Hk. reflexivity.
  - rewrite !(lookup_ge_None_2 _ k); [reflexivity| |].
    + rewrite length_fmap, length_seq. lia.
    + rewrite length_insert, length_fmap, length_seq. lia.
Qed.

Section tab.
Context {T : Type}.
Implicit Types (c : nat -> nat -> T).

Lemma tab_lookup n m c j :
  j < n -> tab n m c !! j = Some (c j <$> seq 0 m).
Proof.
  intros Hj. unfold tab. rewrite list_lookup_fmap, lookup_seq_lt by exact Hj.
  reflexivity.
Qed.

Lemma tab_ext n m c c' :
  (forall j i, j < n -> i < m -> c j i = c' j i) -> tab n m c = tab n m c'.
Proof.
  intros Hc. unfold tab. apply list_fmap_ext. intros k j Hk.
  apply lookup_seq in Hk as [-> Hk]. apply list_fmap_ext. intros k' i Hk'.
  apply lookup_seq in Hk' as [-> Hk']. apply Hc; assumption.
Qed.

Lemma tab_insert n m c j i t :
  j < n ->
  <[j := <[i := t]> (c j <$> seq 0 m)]> (tab n m c) = tab n m (fupd c j i t).
Proof.
  intros Hj. unfold tab. rewrite (row_insert m (c j)).
  rewrite (row_insert n (fun j0 => c j0 <$> seq 0 m)).
  apply list_fmap_ext. intros k j' Hk. apply lookup_seq in Hk as [-> Hk].
  cbn. destruct (decide (k = j)) as [->|Hne].
  - apply list_fmap_ext. intros k' i' Hk'. unfold fupd.
    destruct (decide (i' = i)); destruct (decide (j = j /\ i' = i)); tauto || reflexivity.
  - apply list_fmap_ext. intros k' i' Hk'. unfold fupd.
    rewrite decide_False by tauto. reflexivity.
Qed.

Lemma tab_range {A : Type} (fs : list A) (as_ : list A) (g : A -> A -> T) c :
  (forall j i f a, fs !! j = Some f -> as_ !! i = Some a -> c j i = g f a) ->
  tab (length fs) (length as_) c = (fun f => g f <$> as_) <$> fs.
Proof.
  intros Hc. unfold tab. apply list_eq. intros j.
  rewrite !list_lookup_fmap.
  destruct (fs !! j) as [f|] eqn:Hf.
  - rewrite lookup_seq_lt by (eapply lookup_lt_Some; eassumption). cbn. f_equal.
    apply list_eq. intros i. rewrite !list_lookup_fmap.
    destruct (as_ !! i) as [a|] eqn:Ha.
    + rewrite lookup_seq_lt by (eapply lookup_lt_Some; eassumption). cbn.
      f_equal. eapply Hc; eassumption.
    + rewrite lookup_seq_ge by (apply lookup_ge_None; assumption). reflexivity.
  - rewrite lookup_seq_ge by (apply lookup_ge_None; assumption). reflexivity.
Qed.

End tab.

Lemma replicate_fmap_seq {T : Type} (n : nat) (x : T) :
  replicate n x = (fun _ => x) <$> seq 0 n.
Proof.
  apply list_eq. intros k. rewrite list_lookup_fmap.
  destruct (decide (k < n)) as [Hk|Hk].
  - rewrite lookup_replicate_2, lookup_seq_lt by exact Hk. reflexivity.
  - rewrite lookup_seq_ge by lia. apply lookup_replicate_None. lia.
Qed.

Lemma fmap_const_replicate {A B : Type} (g : A -> B) (x : B) (l : list A) :
  (forall a, a ∈ l -> g a = x) -> g <$> l = replicate (length l) x.
Proof.
  induction l as [|a l IH]; intros Hg; [reflexivity|].
  cbn. rewrite Hg by left. rewrite IH; [reflexivity|].
  intros b Hb. apply Hg. right. exact Hb.
Qed.

Lemma np_zeros_tab (n m L ncols : nat) :
  np_zeros n m L ncols = tab n m (fun _ _ => zeros L ncols).
Proof.
  unfold np_zeros, tab, zeros. rewrite (replicate_fmap_seq n).
  rewrite (replicate_fmap_seq m). reflexivity.
Qed.

Lemma broadcast_row_same (t s : list float) :
  length s = length t -> broadcast_row t s = Ok s.
Proof. intros H. unfold broadcast_row. rewrite decide_True by exact H. reflexivity. Qed.

Lemma mapM_zip_snd {A B : Type} (f : A * B -> result B) (l : list A)
  (k : list B) :
  length k = length l ->
  (forall x y, (x, y) ∈ zip l k -> f (x, y) = Ok y) ->
  mapM f (zip l k) = Ok k.
Proof.
  revert k. induction l as [|x l IH]; intros [|y k] Hlen Hf; try discriminate.
  - reflexivity.
  - cbn [zip zip_with mapM]. rewrite (Hf x y) by left. rewrite Ok_bind.
    rewrite IH; [reflexivity|cbn in Hlen; lia|].
    intros x' y' Hin. apply Hf. right. exact Hin.
Qed.

(** Line 115 on a cell of zeros: what is assigned is [written x]. *)
Lemma broadcast_written (x : selection) (ncols : nat) :
  (forall v, v ∈ written x -> length v = ncols) ->
  broadcast (replicate (len x) (replicate ncols (Num 0))) (selection_values x)
  = Ok (written x).
Proof.
  intros Hwidth. destruct x as [rs|r]; cbn [selection_values written len] in *.
  - unfold broadcast. rewrite decide_True
      by (rewrite length_fmap, length_replicate; reflexivity).
    apply mapM_zip_snd.
    + rewrite length_fmap, length_replicate. reflexivity.
    + intros t v Hin. cbn. apply broadcast_row_same.
      rewrite (Hwidth v) by exact (elem_of_zip_r _ _ _ _ Hin).
      apply elem_of_zip_l, elem_of_replicate in Hin as [-> _].
      rewrite length_replicate. reflexivity.
  - unfold broadcast. set (N := length (values r)) in *.
    assert (Hrow : forall t, t ∈ replicate N (replicate ncols (Num 0)) ->
                             broadcast_row t (values r) = Ok (values r)).
    { intros t [-> HN]%elem_of_replicate. apply broadcast_row_same.
      rewrite length_replicate. apply Hwidth, elem_of_replicate.
      split; [reflexivity|exact HN]. }
    destruct (decide (length [values r] = length (replicate N (replicate ncols (Num 0)))))
      as [Hone|Hmany].
    + rewrite length_replicate in Hone. cbn in Hone. rewrite <- Hone.
      cbn. rewrite Hrow; [reflexivity|].
      rewrite <- Hone. left.
    + rewrite (mapM_Ok _ (fun _ => values r)) by exact Hrow.
      rewrite fmap_replicate. reflexivity.
Qed.

(** The two loops of [_make_grid], for a table whose selections fit the
    array. *)
Section fill.
Context (d : DataFrame) (fs as_ : list float) (L ncols : nat).
Context (Hwidth : forall f a v, v ∈ written (selected d f a) -> length v = ncols).
Context (HL : forall f a, f ∈ fs -> a ∈ as_ -> len (selected d f a) <= L).

Local Abbreviation lens := (track_lens d fs as_).
Local Abbreviation df_list :=
  ((fun a => (fun f => selected d f a) <$> fs) <$> as_).
Local Abbreviation nfeh := (length fs).
Local Abbreviation nage := (length as_).

Lemma lens_lookup j i f a :
  fs !! j = Some f -> as_ !! i = Some a ->
  getitem2 lens j i = Ok (len (selected d f a)).
Proof.
  intros Hf Ha. apply getitem2_Ok. unfold lens, track_lens.
  eexists. rewrite !list_lookup_fmap, Hf. split; [reflexivity|].
  rewrite list_lookup_fmap, Ha. reflexivity.
Qed.

Lemma df_list_lookup j i f a :
  fs !! j = Some f -> as_ !! i = Some a ->
  getitem2 df_list i j = Ok (selected d f a).
Proof.
  intros Hf Ha. apply getitem2_Ok. unfold df_list.
  eexists. rewrite !list_lookup_fmap, Ha. split; [reflexivity|].
  rewrite list_lookup_fmap, Hf. reflexivity.
Qed.

Lemma fill_cell c j i f a :
  fs !! j = Some f -> as_ !! i = Some a -> c j i = zeros L ncols ->
  (N ← getitem2 lens j i;
   t ← getitem2 df_list i j;
   data ← setitem_head (tab nfeh nage c) j i N (selection_values t);
   setitem_tail_nan data j i N)
  = Ok (tab nfeh nage (fupd c j i (padded_track L ncols (selected d f a)))).
Proof.
  intros Hf Ha Hc.
  assert (Hj : j < nfeh) by (eapply lookup_lt_Some; eassumption).
  assert (Hi : i < nage) by (eapply lookup_lt_Some; eassumption).
  assert (HN : len (selected d f a) <= L).
  { apply HL; eapply list_elem_of_lookup_2; eassumption. }
  rewrite (lens_lookup j i f a Hf Ha), Ok_bind.
  rewrite (df_list_lookup j i f a Hf Ha), Ok_bind.
  set (x := selected d f a) in *. set (N := len x) in *.
  assert (Hrow : forall c' : nat -> nat -> list (list float), getitem (tab nfeh nage c') j = Ok (c' j <$> seq 0 nage)).
  { intros c'. apply getitem_Ok, tab_lookup, Hj. }
  assert (Hcell : forall c' : nat -> nat -> list (list float), getitem (c' j <$> seq 0 nage) i = Ok (c' j i)).
  { intros c'. apply getitem_Ok.
    rewrite list_lookup_fmap, lookup_seq_lt by exact Hi. reflexivity. }
  unfold setitem_head. rewrite Hrow, Ok_bind, Hcell, Ok_bind, Hc.
  replace (take N (zeros L ncols)) with (replicate N (replicate ncols (Num 0)))
    by (unfold zeros; rewrite take_replicate, Nat.min_l by exact HN;
        reflexivity).
  pose proof (broadcast_written x ncols
                ltac:(intros v Hv; eapply Hwidth, Hv)) as Hhead.
  fold N in Hhead. rewrite Hhead, Ok_bind.
  rewrite (tab_insert nfeh nage c j i _ Hj), Ok_bind.
  unfold setitem_tail_nan. rewrite Hrow, Ok_bind, Hcell, Ok_bind.
  rewrite (tab_insert nfeh nage (fupd c j i _) j i _ Hj). f_equal. apply tab_ext. intros j' i' _ _.
  unfold fupd. destruct (decide (j' = j /\ i' = i)) as [[-> ->]|Hne].
  - rewrite decide_True by tauto.
    assert (Hlen : N = length (written x)) by (symmetry; apply length_written).
    rewrite take_app_length' by exact Hlen.
    rewrite drop_app_length' by exact Hlen.
    unfold zeros, padded_track. rewrite drop_replicate, fmap_replicate.
    rewrite length_replicate. reflexivity.
  - reflexivity.
Qed.

Lemma stage_not_done i j : stage d fs as_ L ncols i j j i = zeros L ncols.
Proof. unfold stage. rewrite decide_False by lia. reflexivity. Qed.

Lemma inner_loop i a :
  as_ !! i = Some a ->
  for_ (seq 0 nfeh) (fun j data =>
      N ← getitem2 lens j i;
      t ← getitem2 df_list i j;
      data ← setitem_head data j i N (selection_values t);
      setitem_tail_nan data j i N)
    (tab nfeh nage (stage d fs as_ L ncols i 0))
  = Ok (tab nfeh nage (stage d fs as_ L ncols (S i) 0)).
Proof.
  intros Ha.
  destruct (for_seq_invariant
              (fun j data => data = tab nfeh nage (stage d fs as_ L ncols i j))
              (fun j data =>
                 N ← getitem2 lens j i;
                 t ← getitem2 df_list i j;
                 data ← setitem_head data j i N (selection_values t);
                 setitem_tail_nan data j i N)
              nfeh 0 (tab nfeh nage (stage d fs as_ L ncols i 0)) eq_refl)
    as (data' & Hrun & ->).
  - intros j data [_ Hj] ->. cbn in Hj.
    destruct (lookup_lt_is_Some_2 fs j Hj) as [f Hf].
    eexists. split.
    + apply (fill_cell _ j i f a Hf Ha). apply stage_not_done.
    + apply tab_ext. intros j' i' _ _. unfold fupd, stage.
      destruct (decide (j' = j /\ i' = i)) as [[-> ->]|Hne].
      * rewrite decide_True by lia. rewrite Hf, Ha. reflexivity.
      * destruct (decide (i' < i \/ i' = i /\ j' < j));
          destruct (decide (i' < i \/ i' = i /\ j' < S j)); try reflexivity; lia.
  - refine (eq_trans Hrun _). f_equal. apply tab_ext. intros j' i' Hj' _. unfold stage.
    destruct (decide (i' < i \/ i' = i /\ j' < 0 + nfeh));
      destruct (decide (i' < S i \/ i' = S i /\ j' < 0)); try reflexivity; lia.
Qed.

Lemma outer_loop :
  for_ (seq 0 nage) (fun i =>
      for_ (seq 0 nfeh) (fun j data =>
        N ← getitem2 lens j i;
        t ← getitem2 df_list i j;
        data ← setitem_head data j i N (selection_values t);
        setitem_tail_nan data j i N))
    (np_zeros nfeh nage L ncols)
  = Ok (padded_grid d fs as_ L ncols).
Proof.
  destruct (for_seq_invariant
              (fun i data => data = tab nfeh nage (stage d fs as_ L ncols i 0))
              (fun i =>
                 for_ (seq 0 nfeh) (fun j data =>
                   N ← getitem2 lens j i;
                   t ← getitem2 df_list i j;
                   data ← setitem_head data j i N (selection_values t);
                   setitem_tail_nan data j i N))
              nage 0 (np_zeros nfeh nage L ncols))
    as (data' & Hrun & ->).
  - rewrite np_zeros_tab. apply tab_ext. intros j i _ _. unfold stage.
    rewrite decide_False by lia. reflexivity.
  - intros i data [_ Hi] ->. cbn in Hi.
    destruct (lookup_lt_is_Some_2 as_ i Hi) as [a Ha].
    eexists. split; [apply (inner_loop i a Ha)|reflexivity].
  - refine (eq_trans Hrun _). f_equal. unfold padded_grid. apply tab_range.
    intros j i f a Hf Ha. unfold stage. rewrite decide_True by
      (left; cbn; eapply lookup_lt_Some; eassumption).
    rewrite Hf, Ha. reflexivity.
Qed.

End fill.

Lemma np_T_fmap (fs as_ : list float) (h : float -> float -> nat) :
  as_ <> [] ->
  np_T ((fun a => (fun f => h f a) <$> fs) <$> as_)
  = (fun f => (fun a => h f a) <$> as_) <$> fs.
Proof.
  intros Hne. unfold np_T.
  replace (length (default [] (head ((fun a => (fun f => h f a) <$> fs) <$> as_))))
    with (length fs).
  2:{ destruct as_ as [|a0 as']; [contradiction|]. cbn.
      rewrite length_fmap. reflexivity. }
  apply list_eq. intros j. rewrite !list_lookup_fmap.
  destruct (fs !! j) as [f|] eqn:Hf.
  - rewrite lookup_seq_lt by (eapply lookup_lt_Some; eassumption). cbn. f_equal.
    rewrite <- list_fmap_compose. apply list_fmap_ext. intros i a _. cbn.
    rewrite list_lookup_fmap, Hf. reflexivity.
  - rewrite lookup_seq_ge by (apply lookup_ge_None; assumption). reflexivity.
Qed.

Lemma amax_Ok (a : list (list nat)) :
  mjoin a <> [] -> amax a = Ok (max_list (mjoin a)).
Proof. unfold amax. destruct (mjoin a); [contradiction|reflexivity]. Qed.

Lemma track_lens_elem (d : DataFrame) (fs as_ : list float) (f a : float) :
  f ∈ fs -> a ∈ as_ -> len (selected d f a) ∈ mjoin (track_lens d fs as_).
Proof.
  intros Hf Ha. apply list_elem_of_join.
  exists ((fun a => len (selected d f a)) <$> as_). split.
  - apply (list_elem_of_fmap_2 (fun a => len (selected d f a))). exact Ha.
  - unfold track_lens.
    apply (list_elem_of_fmap_2 (fun f => (fun a => len (selected d f a)) <$> as_)).
    exact Hf.
Qed.

Lemma written_width (d : DataFrame) (ncols : nat) :
  (forall f a r, r ∈ track d f a -> length (values r) = ncols) ->
  forall f a v, v ∈ written (selected d f a) -> length v = ncols.
Proof.
  intros Hwidth f a v (r & Hr & ->)%elem_of_written. eapply Hwidth, Hr.
Qed.

Lemma _make_grid_run (self : MIST_Isochrone) :
  Nfeh self = length (fehs self) -> Nage self = length (ages self) ->
  fehs self <> [] -> ages self <> [] ->
  (forall f a, f ∈ fehs self -> a ∈ ages self -> track (df self) f a <> []) ->
  (forall f a r, r ∈ track (df self) f a -> length (values r) = Ncols self) ->
  _make_grid self
  = Ok (set__grid self
          (padded_grid (df self) (fehs self) (ages self)
             (max_list (mjoin (track_lens (df self) (fehs self) (ages self))))
             (Ncols self))
          (track_lens (df self) (fehs self) (ages self))).
Proof.
  intros HNf HNa Hfs Has Hcomplete Hwidth. unfold _make_grid.
  rewrite (mapM_Ok _ (fun a => (fun f => selected (df self) f a) <$> fehs self)).
  2:{ intros a Ha. apply mapM_Ok. intros f Hf. apply ix_Ok. auto. }
  rewrite Ok_bind, HNf, HNa.
  rewrite (mapM_seq (ages self) _
             (fun a => (fun f => len (selected (df self) f a)) <$> fehs self) 0).
  2:{ intros i a Ha. cbn [Nat.add].
      apply (mapM_seq (fehs self) _ (fun f => len (selected (df self) f a)) 0).
      intros j f Hf. cbn [Nat.add].
      rewrite (df_list_lookup (df self) (fehs self) (ages self) j i f a Hf Ha).
      reflexivity. }
  rewrite Ok_bind.
  rewrite (np_T_fmap (fehs self) (ages self)
             (fun f a => len (selected (df self) f a)) Has).
  fold (track_lens (df self) (fehs self) (ages self)).
  rewrite amax_Ok.
  2:{ destruct (fehs self) as [|f0 fs] eqn:Ef; [contradiction|].
      destruct (ages self) as [|a0 as'] eqn:Ea; [contradiction|].
      intros Hnil.
      pose proof (track_lens_elem (df self) (f0 :: fs) (a0 :: as') f0 a0
                    ltac:(left) ltac:(left)) as Hin.
      rewrite Hnil in Hin. inversion Hin. }
  rewrite Ok_bind.
  rewrite (outer_loop (df self) (fehs self) (ages self) _ (Ncols self)
             (written_width _ _ Hwidth)).
  - reflexivity.
  - intros f a Hf Ha. apply max_list_elem_of_le, track_lens_elem; assumption.
Qed.

Lemma _make_grid_complete (self : MIST_Isochrone) (self' : MIST_Isochrone) :
  _make_grid self = Ok self' ->
  forall f a, f ∈ fehs self -> a ∈ ages self -> track (df self) f a <> [].
Proof.
  unfold _make_grid. intros (df_list & Hdf & _)%bind_Ok f a Hf Ha.
  apply mapM_Ok_inv in Hdf.
  apply list_elem_of_lookup in Ha as [i Ha].
  destruct (Forall2_lookup_l _ _ _ _ _ Hdf Ha) as (r & _ & Hr).
  apply mapM_Ok_inv in Hr.
  apply list_elem_of_lookup in Hf as [j Hf].
  destruct (Forall2_lookup_l _ _ _ _ _ Hr Hf) as (x & _ & Hx).
  apply ix_Ok in Hx. tauto.
Qed.

Lemma _make_grid_init_nonempty (df0 : DataFrame) (e : bool)
  (self' : MIST_Isochrone) :
  _make_grid (__init__ df0 e) = Ok self' -> rows df0 <> [].
Proof.
  intros Hrun Hnil. destruct df0 as [ncols rs]. cbn in Hnil. subst rs.
  cbv in Hrun. discriminate.
Qed.

Lemma _make_grid_init (df0 : DataFrame) (e : bool) :
  rectangular df0 -> rows df0 <> [] -> complete df0 ->
  let self := __init__ df0 e in
  _make_grid self
  = Ok (set__grid self
          (padded_grid df0 (fehs self) (ages self)
             (max_list (mjoin (track_lens df0 (fehs self) (ages self))))
             (columns df0))
          (track_lens df0 (fehs self) (ages self))).
Proof.
  intros Hrect Hne Hcomplete self.
  apply (_make_grid_run self); try reflexivity.
  - intros Hnil%unique_nil_inv%fmap_nil_inv. contradiction.
  - intros Hnil%unique_nil_inv%fmap_nil_inv. contradiction.
  - intros f a Hf Ha.
    apply Hcomplete; [exact (proj1 (elem_of_unique _ _) Hf)|exact (proj1 (elem_of_unique _ _) Ha)].
  - intros f a r. apply rectangular_track, Hrect.
Qed.

Lemma _make_grid_init_inv (df0 : DataFrame) (e : bool) (self' : MIST_Isochrone) :
  rectangular df0 ->
  _make_grid (__init__ df0 e) = Ok self' ->
  let self := __init__ df0 e in
  self' = set__grid self
            (padded_grid df0 (fehs self) (ages self)
               (max_list (mjoin (track_lens df0 (fehs self) (ages self))))
               (columns df0))
            (track_lens df0 (fehs self) (ages self)).
Proof.
  intros Hrect Hrun self.
  assert (Hne := _make_grid_init_nonempty df0 e self' Hrun).
  assert (Hc : complete df0).
  { intros f a Hf Ha.
    apply (_make_grid_complete _ _ Hrun);
      [exact (proj2 (elem_of_unique _ _) Hf)|exact (proj2 (elem_of_unique _ _) Ha)]. }
  rewrite (_make_grid_init df0 e Hrect Hne Hc) in Hrun.
  injection Hrun as <-. reflexivity.
Qed.




Lemma padded_track_valid (L ncols : nat) (x : selection) :
  take (len x) (padded_track L ncols x) = written x.
Proof.
  unfold padded_track. apply take_app_length'. symmetry. apply length_written.
Qed.


Lemma _make_grid_gap (self : MIST_Isochrone) (f a : float) :
  f ∈ fehs self -> a ∈ ages self -> track (df self) f a = [] ->
  _make_grid self = Raise KeyError.
Proof.
  intros Hf Ha Hgap. unfold _make_grid.
  rewrite (mapM_Raise _ (ages self) KeyError); [reflexivity| |].
  - intros a' _. apply mapM_ix_cases.
  - exists a. split; [exact Ha|].
    apply mapM_Raise.
    + intros f' _. apply ix_cases.
    + exists f. split; [exact Hf|]. unfold ix. rewrite Hgap. reflexivity.
Qed.

Lemma rectangular_df_demo : rectangular df_demo.
Proof. repeat constructor. Qed.

Lemma complete_df_demo : complete df_demo.
Proof.
  assert (Hage : forall r, r ∈ rows df_demo -> log10_isochrone_age_yr r = Num 9).
  { intros r Hr. cbn in Hr.
    repeat (apply elem_of_cons in Hr as [->|Hr]; [reflexivity|]).
    inversion Hr. }
  intros f a (rf & -> & Hrf)%list_elem_of_fmap (ra & -> & Hra)%list_elem_of_fmap.
  rewrite (Hage ra Hra), <- (Hage rf Hrf). apply track_nonempty, Hrf.
Qed.

Lemma not_is_unique_df_demo : ~ is_unique df_demo.
Proof.
  unfold is_unique, index. cbn [rows df_demo fmap list_fmap].
  intros [Hnotin _]%NoDup_cons. apply Hnotin. left.
Qed.

Lemma track_lens_Frame (d : DataFrame) (fs as_ : list float) :
  ~ is_unique d ->
  track_lens d fs as_
  = (fun f => (fun a => length (track d f a)) <$> as_) <$> fs.
Proof.
  intros Hd. unfold track_lens. apply list_fmap_ext. intros _ f _.
  apply list_fmap_ext. intros _ a _. rewrite (selected_Frame d f a Hd).
  reflexivity.
Qed.


Lemma elem_of_track_lens (d : DataFrame) (fs as_ : list float) (N : nat) :
  N ∈ mjoin (track_lens d fs as_) ->
  exists f a, f ∈ fs /\ a ∈ as_ /\ N = len (selected d f a).
Proof.
  intros (ns & HN & Hns)%list_elem_of_join.
  apply list_elem_of_fmap in Hns as (f & -> & Hf).
  apply list_elem_of_fmap in HN as (a & -> & Ha).
  exists f, a. auto.
Qed.









(** ** The interpolation entry point *)

Lemma grid_init (df0 : DataFrame) (e e' : bool) :
  rectangular df0 -> rows df0 <> [] -> complete df0 ->
  let self := set_ext_table (__init__ df0 e) e' in
  grid self
  = Ok (padded_grid df0 (fehs self) (ages self)
          (max_list (mjoin (track_lens df0 (fehs self) (ages self))))
          (columns df0))
  /\ grid_Ns self = Ok (track_lens df0 (fehs self) (ages self)).
Proof.
  intros Hrect Hne Hc self. unfold grid, grid_Ns.
  change (_grid self) with (@None array4).
  change (_grid_Ns self) with (@None (list (list nat))).
  rewrite (_make_grid_run self); try reflexivity.
  - split; reflexivity.
  - intros Hnil%unique_nil_inv%fmap_nil_inv. contradiction.
  - intros Hnil%unique_nil_inv%fmap_nil_inv. contradiction.
  - intros f a Hf Ha.
    apply Hc; [exact (proj1 (elem_of_unique _ _) Hf)|exact (proj1 (elem_of_unique _ _) Ha)].
  - intros f a r. apply rectangular_track, Hrect.
Qed.

(** Where the table lacks a pair, the grid cannot be built and the entry
    point raises, whatever [.utils] does. *)
Section any_utils.
Context {utils_module : utils.t}.

Lemma interp_value_gap (df0 : DataFrame) (e : bool) (f a : float)
  (q_mass q_age q_feh : R) (icol : nat) :
  f ∈ feh <$> rows df0 -> a ∈ log10_isochrone_age_yr <$> rows df0 ->
  track df0 f a = [] ->
  interp_value (__init__ df0 e) q_mass q_age q_feh icol = Raise KeyError.
Proof.
  intros Hf Ha Hgap. unfold interp_value, grid.
  change (_grid (__init__ df0 e)) with (@None array4).
  rewrite (_make_grid_gap (__init__ df0 e) f a); try reflexivity.
  - exact (proj2 (elem_of_unique _ _) Hf).
  - exact (proj2 (elem_of_unique _ _) Ha).
  - exact Hgap.
Qed.

End any_utils.

Lemma elem_of_tail {A : Type} (x : A) (l : list A) : x ∈ tail l -> x ∈ l.
Proof. destruct l; [auto|]. cbn. intros Hx. right. exact Hx. Qed.

Lemma beyond_subseteq (axis axis' : list float) (x : R) :
  axis' ⊆ axis -> beyond axis x -> beyond axis' x.
Proof. intros Hsub [H|H]; [left|right]; intros r Hr; apply H, Hsub, Hr. Qed.

Lemma bracket_beyond (axis : list float) (x : R) :
  beyond axis x -> spec.bracket axis x = None.
Proof.
  intros Hb. unfold spec.bracket.
  assert (Hnone : list_find (spec.between x) (zip axis (tail axis)) = None).
  { apply list_find_None, Forall_forall. intros [lo hi] Hp [Hlo Hhi].
    pose proof (elem_of_zip_l _ _ _ _ Hp) as Hin_lo.
    pose proof (elem_of_tail _ _ (elem_of_zip_r _ _ _ _ Hp)) as Hin_hi.
    cbn in Hlo, Hhi. destruct lo as [l|]; [|contradiction].
    destruct hi as [h|]; [|contradiction]. cbn in Hlo, Hhi.
    destruct Hb as [Hb|Hb].
    - specialize (Hb l Hin_lo). lra.
    - specialize (Hb h Hin_hi). lra. }
  rewrite Hnone. reflexivity.
Qed.

Lemma padded_grid_cell (d : DataFrame) (fs as_ : list float) (L ncols : nat)
  (j i : nat) :
  (padded_grid d fs as_ L ncols !! j ≫= fun plane => plane !! i)
  = (f ← fs !! j; a ← as_ !! i;
     Some (padded_track L ncols (selected d f a))).
Proof.
  unfold padded_grid, array4. rewrite list_lookup_fmap.
  destruct (fs !! j) as [f|]; [|reflexivity].
  change (((fun a => padded_track L ncols (selected d f a)) <$> as_) !! i
          = (a ← as_ !! i; Some (padded_track L ncols (selected d f a)))).
  rewrite list_lookup_fmap. destruct (as_ !! i) as [a|]; reflexivity.
Qed.

Lemma track_lens_cell (d : DataFrame) (fs as_ : list float) (j i : nat) :
  (track_lens d fs as_ !! j ≫= fun ns => ns !! i)
  = (f ← fs !! j; a ← as_ !! i; Some (len (selected d f a))).
Proof.
  unfold track_lens. rewrite list_lookup_fmap.
  destruct (fs !! j) as [f|]; [|reflexivity].
  cbn [fmap option_fmap option_map mbind option_bind].
  rewrite list_lookup_fmap. destruct (as_ !! i) as [a|]; reflexivity.
Qed.

Lemma corner_beyond (d : DataFrame) (fs as_ : list float) (L ncols : nat)
  (mass_col icol j i : nat) (m : R) :
  beyond (iloc_col d mass_col) m ->
  spec.corner (padded_grid d fs as_ L ncols) (track_lens d fs as_)
    mass_col icol j i m = NaN.
Proof.
  intros Hb. unfold spec.corner.
  rewrite padded_grid_cell, track_lens_cell.
  rewrite bracket_beyond; [reflexivity|].
  apply (beyond_subseteq (iloc_col d mass_col)); [|exact Hb].
  destruct (fs !! j) as [f|]; [|intros y Hy; inversion Hy].
  destruct (as_ !! i) as [a|]; [|intros y Hy; inversion Hy].
  cbn. rewrite padded_track_valid.
  intros y (vs & -> & (r & Hr & ->)%elem_of_written)%list_elem_of_fmap.
  unfold iloc_col, spec.cell.
  apply (list_elem_of_fmap_2 (fun r => default NaN (values r !! mass_col))).
  eapply track_rows, Hr.
Qed.

Lemma spec_interp_value_beyond (d : DataFrame) (fs as_ : list float)
  (L ncols mass_col icol : nat) (m a f : R) :
  beyond fs f \/ beyond as_ a \/ beyond (iloc_col d mass_col) m ->
  spec.interp_value m a f icol (padded_grid d fs as_ L ncols) mass_col as_ fs
    (track_lens d fs as_) = Ok NaN.
Proof.
  intros Hb. unfold spec.interp_value.
  destruct Hb as [Hb|[Hb|Hb]].
  - rewrite (bracket_beyond fs f Hb). reflexivity.
  - rewrite (bracket_beyond as_ a Hb).
    destruct (spec.bracket fs f) as [[j0 j1]|]; reflexivity.
  - destruct (spec.bracket fs f) as [[j0 j1]|]; [|reflexivity].
    destruct (spec.bracket as_ a) as [[i0 i1]|]; [|reflexivity].
    rewrite !(corner_beyond d fs as_ L ncols mass_col icol _ _ m Hb).
    rewrite !fmul_NaN. reflexivity.
Qed.

(** C4 (as amended): for an engine on a table that is not empty and has a
    row for every pair of a metallicity and an age of its axes, a scalar query
    with a coordinate beyond its axis (the metallicity axis, the age axis, or
    the mass column of the table) makes the entry point return NaN; it does
    not raise.  The interpolation helpers are those modelled from the
    specification. *)
Theorem out_of_range_query_is_nan (df0 : DataFrame) (e : bool)
  (mass age feh : R) (icol : nat) :
  rectangular df0 -> rows df0 <> [] -> complete df0 ->
  let self := __init__ df0 e in
  beyond (fehs self) feh \/ beyond (ages self) age
  \/ beyond (iloc_col df0 (mass_col self)) mass ->
  interp_value (utils_module := spec.utils) self mass age feh icol = Ok (Scalar NaN).
Proof.
  intros Hrect Hne Hc self Hb. unfold interp_value.
  destruct (grid_init df0 e e Hrect Hne Hc) as [Hg Hns].
  change (set_ext_table (__init__ df0 e) e) with self in Hg, Hns.
  rewrite Hg, Hns, !Ok_bind.
  change (utils.interp_value mass age feh icol) with
    (spec.interp_value mass age feh icol).
  rewrite (spec_interp_value_beyond df0 (fehs self) (ages self) _ _
             (mass_col self) icol mass age feh Hb).
  reflexivity.
Qed.

Lemma beyond_fehs_df_demo : beyond (fehs (__init__ df_demo false)) 1.
Proof.
  right. intros r Hr0. pose proof (proj1 (elem_of_unique _ _) Hr0) as Hr.
  cbn in Hr.
  repeat (apply elem_of_cons in Hr as [Hr|Hr]; [float_lra|]).
  inversion Hr.
Qed.

(** C4 (as amended) on [df_demo], at a metallicity above the axis. *)
Lemma out_of_range_query_is_nan_demo :
  rectangular df_demo /\ rows df_demo <> [] /\ complete df_demo
  /\ beyond (fehs (__init__ df_demo false)) 1
  /\ interp_value (utils_module := spec.utils) (__init__ df_demo false) 1 9 1 4
     = Ok (Scalar NaN).
Proof.
  split; [exact rectangular_df_demo|].
  split; [discriminate|].
  split; [exact complete_df_demo|].
  split; [exact beyond_fehs_df_demo|].
  apply (out_of_range_query_is_nan df_demo false 1 9 1 4 rectangular_df_demo);
    [discriminate|exact complete_df_demo|].
  left. exact beyond_fehs_df_demo.
Defined.

Lemma track_df_gap : track df_gap (Num 0) (Num 9) = [].
Proof.
  destruct (track df_gap (Num 0) (Num 9)) as [|r rs] eqn:E; [reflexivity|].
  assert (Hr : r ∈ track df_gap (Num 0) (Num 9)) by (rewrite E; left).
  unfold track in Hr. apply list_elem_of_filter in Hr as [[Hf Ha] Hr].
  cbn in Hr.
  repeat (apply elem_of_cons in Hr as [->|Hr]; [cbn in Hf, Ha; float_lra|]).
  inversion Hr.
Qed.

(** C4 (as stated, refuted): on [df_gap], where the pair (0, 9) labels no
    row, a query at metallicity 5, above the axis, makes the entry point raise
    KeyError: building the grid fails inside the [try], and again in the
    [except] branch. *)
Lemma out_of_range_query_raises :
  rectangular df_gap
  /\ beyond (fehs (__init__ df_gap false)) 5
  /\ interp_value (utils_module := spec.utils) (__init__ df_gap false) 1 9 5 4
     = Raise KeyError.
Proof.
  split_and!.
  - repeat constructor.
  - right. intros r Hr0. pose proof (proj1 (elem_of_unique _ _) Hr0) as Hr.
    cbn in Hr.
    repeat (apply elem_of_cons in Hr as [Hr|Hr]; [float_lra|]).
    inversion Hr.
  - apply (interp_value_gap df_gap false (Num 0) (Num 9)).
    + cbn. right. right. left.
    + cbn. left.
    + exact track_df_gap.
Qed.

(** ** The closures of [__init__] *)

Lemma Forall_dict_set {V : Type} (P : string * V -> Prop) (d : dict V)
  (k : string) (v : V) :
  Forall P d -> P (k, v) -> Forall P (dict_set d k v).
Proof.
  intros Hd Hkv. induction d as [|[k' v'] d IH]; cbn.
  - constructor; [exact Hkv|constructor].
  - apply Forall_cons in Hd as [Hhd Htl].
    case_decide; constructor; auto.
Qed.

Lemma mag_comprehension_snoc (items : list (string * nat))
  (item : string * nat) (heap : list (option nat)) :
  mag_comprehension (items ++ [item]) heap
  = mag_comprehension_step (length heap) (mag_comprehension items heap) item.
Proof. unfold mag_comprehension. apply foldl_snoc. Qed.

Lemma mag_comprehension_shares_cell (items : list (string * nat))
  (heap : list (option nat)) :
  let r := mag_comprehension items heap in
  length r.1 = S (length heap)
  /\ r.1 !! length heap = Some (snd <$> last items)
  /\ Forall (fun kv => free_i kv.2 = length heap) r.2.
Proof.
  induction items as [|item items IH] using rev_ind.
  - cbn. split_and!.
    + rewrite length_app. cbn. lia.
    + rewrite lookup_app_r by lia. rewrite Nat.sub_diag. reflexivity.
    + constructor.
  - rewrite mag_comprehension_snoc. destruct IH as (Hlen & _ & Hall).
    unfold mag_comprehension_step. cbn [fst snd]. split_and!.
    + rewrite length_insert. exact Hlen.
    + rewrite list_lookup_insert_eq by lia. rewrite last_snoc. reflexivity.
    + apply Forall_dict_set; [exact Hall|reflexivity].
Qed.

Lemma init_mag (df0 : DataFrame) (e : bool) :
  _mag (__init__ df0 e)
  = [("u", {| free_i := 0 |}); ("g", {| free_i := 0 |});
     ("r", {| free_i := 0 |}); ("i", {| free_i := 0 |});
     ("z", {| free_i := 0 |})]%string.
Proof. reflexivity. Qed.

Lemma init_cells (df0 : DataFrame) (e : bool) :
  cells (__init__ df0 e) = [Some 11].
Proof. reflexivity. Qed.

(** Line 48: the closure of band [b] holds [b] itself and the flag of the
    construction, also after the attribute is reassigned. *)
Lemma init_mag_get (df0 : DataFrame) (e e' : bool) (b : string) :
  b ∈ bands (__init__ df0 e) ->
  dict_get (mag (set_ext_table (__init__ df0 e) e')) b
  = Ok {| fn_band := b; fn_ext_table := e |}.
Proof.
  intros Hb. cbn in Hb.
  repeat (apply elem_of_cons in Hb as [->|Hb]; [reflexivity|]).
  inversion Hb.
Qed.

Section correctness.
Context {astropy_module : astropy.t} {extinction_module : extinction.t}
  {utils_module : utils.t}.

Lemma mag_call_fn (self : MIST_Isochrone) (b : string) (e : bool)
  (m a f : R) (distance AV x_ext : option R) (ext_table : option bool) :
  dict_get (mag self) b = Ok {| fn_band := b; fn_ext_table := e |} ->
  mag_call self b m a f distance AV x_ext ext_table
  = v ← _mag_call self b m a f;
    Ok (vadd (vadd v (distance_modulus (default 10%R distance)))
             (Num (extinction_A b (default 0%R AV) (default 0%R x_ext)
                     (default e ext_table)))).
Proof.
  intros Hfn. unfold mag_call. rewrite Hfn, Ok_bind.
  unfold call_fn, _mag_call. cbn [fn_band fn_ext_table].
  destruct (dict_get (_mag self) b); reflexivity.
Qed.

(** C1 (the code departs from the claim): the band-to-column map assigns
    column 7 to band u, but the intrinsic-magnitude term of band u
    interpolates column 11, the column of band z: the lambdas of line 46
    share the variable [i] of the comprehension, which holds 11 once the
    comprehension has run. *)
Theorem mag_u_reads_column_of_z (df0 : DataFrame) (e : bool) (m a f : R) :
  let self := __init__ df0 e in
  dict_get (_mag_cols self) "u" = Ok 7
  /\ _mag_call self "u" m a f = interp_value self m a f 11.
Proof. split; reflexivity. Qed.

Lemma mag_lambdas_read_last_column (df0 : DataFrame) (e e' : bool) :
  let self := set_ext_table (__init__ df0 e) e' in
  Forall (fun b => forall m a f : R,
            _mag_call self b m a f = interp_value self m a f 11)
         (bands self).
Proof. repeat constructor. Qed.

(** C7 (the code departs from the claim): band g, distance 100, AV 0.  The
    band-to-column map gives band g column 8, but the magnitude function adds
    the distance modulus 5 log10(100) - 5 = 5 and the extinction term 0 to
    the interpolation of column 11, the column of band z: where that
    interpolation returns x, the result is x + 5, whatever column 8 holds.
    It is the defect of C1, seen through [self.mag]. *)
Theorem mag_g_adds_modulus_to_column_of_z (df0 : DataFrame) (e : bool)
  (m a f x : R) (x_ext : option R) (ext_table : option bool) :
  let self := __init__ df0 e in
  interp_value self m a f 11 = Ok (Scalar (Num x)) ->
  dict_get (_mag_cols self) "g" = Ok 8
  /\ mag_call self "g" m a f (Some 100%R) (Some 0%R) x_ext ext_table
     = Ok (Scalar (Num (x + 5))).
Proof.
  intros self Hx. split; [reflexivity|].
  assert (Hfn : dict_get (mag self) "g"
                = Ok {| fn_band := "g"; fn_ext_table := e |})
    by (apply (init_mag_get df0 e e); cbn; right; left).
  rewrite (mag_call_fn self "g" e m a f (Some 100%R) (Some 0%R) x_ext
             ext_table Hfn).
  change (_mag_call self "g" m a f) with (interp_value self m a f 11).
  rewrite Hx, Ok_bind. cbn [from_option]. unfold Datatypes.id.
  rewrite distance_modulus_100, vadd_vadd. cbn. do 3 f_equal.
  unfold extinction_A.
  destruct (from_option _ e ext_table); [|destruct (decide _)]; lra.
Qed.

Lemma extinction_A_cases (b : string) (AV x_ext : R) :
  extinction_A b AV x_ext true = (AV * extinction.EXTINCTION b)%R
  /\ extinction_A b AV 0 false
     = (AV * extinction.extcurve_0 (extinction.LAMBDA_EFF b))%R
  /\ (x_ext <> 0%R ->
      extinction_A b AV x_ext false
      = (AV * extinction.extcurve x_ext (extinction.LAMBDA_EFF b))%R).
Proof.
  unfold extinction_A. split_and!.
  - reflexivity.
  - rewrite decide_True by reflexivity. reflexivity.
  - intros Hx. rewrite decide_False by exact Hx. reflexivity.
Qed.

(** C8: the extinction contribution A that the magnitude function adds is
    AV times the band's fixed coefficient when the fixed table is asked for;
    otherwise it is AV times the default curve at the band's effective
    wavelength when the extinction parameter is zero, and AV times the curve
    of that parameter when it is not. *)
Theorem extinction_contribution (df0 : DataFrame) (e : bool) :
  let self := __init__ df0 e in
  Forall (fun b =>
    forall (m a f distance AV x_ext : R) (use_table : bool),
      exists A : R,
        mag_call self b m a f (Some distance) (Some AV) (Some x_ext)
          (Some use_table)
        = (v ← _mag_call self b m a f;
           Ok (vadd (vadd v (distance_modulus distance)) (Num A)))
        /\ (use_table = true -> A = (AV * extinction.EXTINCTION b)%R)
        /\ (use_table = false -> x_ext = 0%R ->
            A = (AV * extinction.extcurve_0 (extinction.LAMBDA_EFF b))%R)
        /\ (use_table = false -> x_ext <> 0%R ->
            A = (AV * extinction.extcurve x_ext (extinction.LAMBDA_EFF b))%R))
    (bands self).
Proof.
  intros self. apply Forall_forall. intros b Hb m a f distance AV x_ext use_table.
  exists (extinction_A b AV x_ext use_table). split_and!.
  - apply (mag_call_fn self b e m a f (Some distance) (Some AV) (Some x_ext)
             (Some use_table)).
    exact (init_mag_get df0 e e b Hb).
  - intros ->. exact (proj1 (extinction_A_cases b AV x_ext)).
  - intros -> ->. exact (proj1 (proj2 (extinction_A_cases b AV 0))).
  - intros -> Hx. exact (proj2 (proj2 (extinction_A_cases b AV x_ext)) Hx).
Qed.

(** C9: when the log-gravity interpolation returns a number g, the mass
    accessor returns the query mass itself and the radius is
    sqrt(G * mass * MSUN / 10^g) / RSUN, computed with the module constants;
    for a non-negative G * mass * MSUN and a non-zero RSUN that is a finite
    number. *)
Theorem radius_formula (self : MIST_Isochrone) (m a f g : R) :
  logg self m a f = Ok (Scalar (Num g)) ->
  mass self [m; a; f] = Ok m
  /\ radius self [m; a; f]
     = Ok (Scalar (fdiv (np_sqrt (fdiv (Num (G * m * MSUN)) (pow10 (Num g))))
                        (Num RSUN)))
  /\ ((0 <= G * m * MSUN)%R -> RSUN <> 0%R ->
      radius self [m; a; f]
      = Ok (Scalar (Num (sqrt (G * m * MSUN / Rpower 10 g) / RSUN)))).
Proof.
  intros Hg.
  assert (Hr : radius self [m; a; f]
               = Ok (Scalar (fdiv (np_sqrt (fdiv (Num (G * m * MSUN))
                                                 (pow10 (Num g))))
                                  (Num RSUN)))).
  { unfold radius, mass. cbn [getitem lookup list_lookup splat].
    rewrite Ok_bind, Hg, Ok_bind. reflexivity. }
  split_and!; [reflexivity|exact Hr|].
  intros Hpos HR. rewrite Hr. do 2 f_equal. cbn [pow10 fdiv].
  assert (Hp : (0 < Rpower 10 g)%R) by (unfold Rpower; apply exp_pos).
  rewrite decide_False by lra. cbn [np_sqrt].
  rewrite decide_False.
  2:{ apply Rle_not_lt. apply Rmult_le_pos; [exact Hpos|].
      left. apply Rinv_0_lt_compat, Hp. }
  cbn [fdiv]. rewrite decide_False by exact HR. reflexivity.
Qed.

(** C10: after the engine's [ext_table] attribute is reassigned, a
    magnitude function called without [ext_table] still behaves as with the
    flag the engine was constructed with. *)
Theorem ext_table_default_is_fixed_at_construction
  (df0 : DataFrame) (e e' : bool) :
  let self := set_ext_table (__init__ df0 e) e' in
  ext_table self = e'
  /\ Forall (fun b =>
       forall (m a f : R) (distance AV x_ext : option R),
         mag_call self b m a f distance AV x_ext None
         = mag_call self b m a f distance AV x_ext (Some e))
       (bands self).
Proof.
  intros self. split; [reflexivity|].
  apply Forall_forall. intros b Hb m a f distance AV x_ext.
  assert (Hfn : dict_get (mag self) b = Ok {| fn_band := b; fn_ext_table := e |})
    by exact (init_mag_get df0 e e' b Hb).
  rewrite !(mag_call_fn self b e m a f distance AV x_ext _ Hfn).
  reflexivity.
Qed.

End correctness.

(** ** Examples *)

(** With a stand-in for [.utils] that returns the column number, band u
    reads 11 where its own column would give 7. *)
Lemma mag_u_differs_from_column_u :
  let self := __init__ df_demo false in
  _mag_call (utils_module := utils_icol) self "u" 1 9 0
  = Ok (Scalar (Num (INR 11)))
  /\ interp_value (utils_module := utils_icol) self 1 9 0 7
     = Ok (Scalar (Num (INR 7)))
  /\ Num (INR 11) <> Num (INR 7).
Proof.
  intros self.
  destruct (grid_init df_demo false false rectangular_df_demo
              ltac:(discriminate) complete_df_demo) as [Hg Hns].
  change (set_ext_table (__init__ df_demo false) false) with self in Hg, Hns.
  assert (Hi : forall icol,
             interp_value (utils_module := utils_icol) self 1 9 0 icol
             = Ok (Scalar (Num (INR icol)))).
  { intros icol. unfold interp_value. rewrite Hg, Hns. reflexivity. }
  split_and!.
  - change (_mag_call (utils_module := utils_icol) self "u" 1 9 0)
      with (interp_value (utils_module := utils_icol) self 1 9 0 11).
    apply Hi.
  - apply Hi.
  - intros Heq%Num_inj%INR_eq. discriminate.
Qed.

Lemma interp_value_df_demo (m a f : R) (icol : nat) :
  interp_value (utils_module := utils_icol) (__init__ df_demo false) m a f icol
  = Ok (Scalar (Num (INR icol))).
Proof.
  destruct (grid_init df_demo false false rectangular_df_demo
              ltac:(discriminate) complete_df_demo) as [Hg Hns].
  unfold interp_value.
  change (set_ext_table (__init__ df_demo false) false)
    with (__init__ df_demo false) in Hg, Hns.
  rewrite Hg, Hns. reflexivity.
Qed.

(** C7 at band g on [df_demo], with the stand-in for [.utils] that returns
    the number of the column: column 8, the column of band g, gives 8, so
    the claim's value is 8 + 5; the magnitude function returns 11 + 5. *)
Lemma mag_g_adds_modulus_to_column_of_z_demo :
  interp_value (utils_module := utils_icol) (__init__ df_demo false) 1 9 0 11
  = Ok (Scalar (Num (INR 11)))
  /\ interp_value (utils_module := utils_icol) (__init__ df_demo false) 1 9 0 8
     = Ok (Scalar (Num (INR 8)))
  /\ mag_call (extinction_module := extinction_demo)
       (utils_module := utils_icol) (__init__ df_demo false) "g" 1 9 0
       (Some 100%R) (Some 0%R) None None
     = Ok (Scalar (Num (INR 11 + 5)))
  /\ (INR 11 + 5 <> INR 8 + 5)%R.
Proof.
  split; [apply interp_value_df_demo|].
  split; [apply interp_value_df_demo|].
  split.
  - exact (proj2 (mag_g_adds_modulus_to_column_of_z
                    (extinction_module := extinction_demo)
                    (utils_module := utils_icol) df_demo false 1 9 0 (INR 11)
                    None None (interp_value_df_demo 1 9 0 11))).
  - intros H. assert (Heq : INR 11 = INR 8) by lra.
    apply INR_eq in Heq. discriminate.
Defined.

Lemma logg_df_demo :
  logg (utils_module := utils_icol) (__init__ df_demo false) 1 9 0
  = Ok (Scalar (Num (INR 4))).
Proof.
  destruct (grid_init df_demo false false rectangular_df_demo
              ltac:(discriminate) complete_df_demo) as [Hg Hns].
  unfold logg, interp_value.
  change (set_ext_table (__init__ df_demo false) false)
    with (__init__ df_demo false) in Hg, Hns.
  rewrite Hg, Hns. reflexivity.
Qed.

(** C9 on [df_demo], with the fallback constants. *)
Lemma radius_formula_demo :
  logg (utils_module := utils_icol) (__init__ df_demo false) 1 9 0
  = Ok (Scalar (Num (INR 4)))
  /\ radius (astropy_module := None) (utils_module := utils_icol)
       (__init__ df_demo false) [1%R; 9%R; 0%R]
     = Ok (Scalar (fdiv (np_sqrt (fdiv (Num (6.67e-11 * 1 * 1.99e33))
                                       (pow10 (Num (INR 4)))))
                        (Num 6.96e10))).
Proof.
  split; [exact logg_df_demo|].
  exact (proj1 (proj2 (radius_formula (astropy_module := None)
                         (utils_module := utils_icol)
                         (__init__ df_demo false) 1 9 0 (INR 4) logg_df_demo))).
Defined.

(** C8 on [df_demo]: the default curve at extinction parameter zero. *)
Lemma extinction_contribution_demo :
  exists A : R,
    mag_call (extinction_module := extinction_demo) (utils_module := utils_icol)
      (__init__ df_demo false) "u" 1 9 0
      (Some 10%R) (Some 0.3%R) (Some 0%R) (Some false)
    = (v ← _mag_call (utils_module := utils_icol) (__init__ df_demo false)
             "u" 1 9 0;
       Ok (vadd (vadd v (distance_modulus 10)) (Num A)))
    /\ A = (0.3 * 1)%R.
Proof.
  pose proof (extinction_contribution (extinction_module := extinction_demo)
                (utils_module := utils_icol) df_demo false) as Hall.
  cbn zeta in Hall. rewrite Forall_forall in Hall.
  destruct (Hall "u"%string ltac:(left) 1%R 9%R 0%R 10%R 0.3%R 0%R false)
    as (A & Hcall & _ & Hzero & _).
  exists A. split; [exact Hcall|exact (Hzero eq_refl eq_refl)].
Defined.

(** * Further properties of the module *)

(** ** The axes and the ranges *)

Lemma unique_strictly_increasing (l : list float) :
  non_decreasing l -> strictly_increasing (unique l).
Proof.
  intros Hnd i j x y Hx Hy Hij.
  destruct (unique_order l i j x y Hx Hy Hij) as (k & Hk & Hafter).
  assert (Hyl : y ∈ l).
  { apply elem_of_unique. eapply list_elem_of_lookup_2, Hy. }
  apply list_elem_of_lookup in Hyl as [k' Hk'].
  pose proof (Hnd k k' x y Hk Hk' (Hafter k' Hk')) as Hle.
  assert (Hne : x <> y).
  { intros ->. pose proof (NoDup_lookup _ i j y (NoDup_unique l) Hx Hy). lia. }
  destruct x as [a|], y as [b|]; cbn in Hle |- *; try contradiction.
  destruct (Rle_lt_or_eq_dec a b Hle) as [Hlt|Heq]; [exact Hlt|congruence].
Qed.

(** X1: when the metallicity column of the table never decreases from one row
    to the next, the metallicity axis is strictly increasing; likewise for the
    age column and the age axis. *)
Theorem sorted_column_gives_increasing_axis (df0 : DataFrame) (e : bool) :
  let self := __init__ df0 e in
  (non_decreasing (feh <$> rows df0) -> strictly_increasing (fehs self))
  /\ (non_decreasing (log10_isochrone_age_yr <$> rows df0) ->
      strictly_increasing (ages self)).
Proof. split; apply unique_strictly_increasing. Qed.

Lemma non_decreasing_feh_df_demo : non_decreasing (feh <$> rows df_demo).
Proof.
  intros i j x y Hx Hy Hij. cbn in Hx, Hy.
  destruct i as [|[|[|[|[|i]]]]]; destruct j as [|[|[|[|[|j]]]]];
    try lia; try discriminate;
    injection Hx as <-; injection Hy as <-; cbn; lra.
Qed.

(** X1 on [df_demo]. *)
Lemma sorted_column_gives_increasing_axis_demo :
  non_decreasing (feh <$> rows df_demo)
  /\ strictly_increasing (fehs (__init__ df_demo false)).
Proof.
  split; [exact non_decreasing_feh_df_demo|].
  exact (proj1 (sorted_column_gives_increasing_axis df_demo false)
           non_decreasing_feh_df_demo).
Defined.

Lemma Rmin_cases (a b : R) : Rmin a b = a \/ Rmin a b = b.
Proof. unfold Rmin. destruct (Rle_dec a b); auto. Qed.

Lemma Rmax_cases (a b : R) : Rmax a b = a \/ Rmax a b = b.
Proof. unfold Rmax. destruct (Rle_dec a b); auto. Qed.

Lemma foldl_fmin_Num (l : list float) (x : float) (m : R) :
  foldl fmin x l = Num m ->
  Num m ∈ x :: l /\ forall y, y ∈ x :: l -> fle (Num m) y.
Proof.
  revert x. induction l as [|y l IH]; intros x Hm.
  - cbn in Hm. subst x. split; [left|].
    intros y ->%list_elem_of_singleton. cbn. lra.
  - cbn in Hm. destruct (IH _ Hm) as [Hin Hle].
    assert (Hxy : fle (Num m) (fmin x y)) by (apply Hle; left).
    destruct x as [a|], y as [b|]; cbn in Hxy; try contradiction.
    cbn [fmin] in Hin.
    pose proof (Rmin_l a b). pose proof (Rmin_r a b). split.
    + apply elem_of_cons in Hin as [Heq|Hin].
      * apply Num_inj in Heq.
        destruct (Rmin_cases a b) as [Hr|Hr]; rewrite Hr in Heq; subst m;
          [left|right; left].
      * right. right. exact Hin.
    + intros z Hz. apply elem_of_cons in Hz as [->|Hz]; [cbn; lra|].
      apply elem_of_cons in Hz as [->|Hz]; [cbn; lra|].
      apply Hle. right. exact Hz.
Qed.

Lemma foldl_fmax_Num (l : list float) (x : float) (m : R) :
  foldl fmax x l = Num m ->
  Num m ∈ x :: l /\ forall y, y ∈ x :: l -> fle y (Num m).
Proof.
  revert x. induction l as [|y l IH]; intros x Hm.
  - cbn in Hm. subst x. split; [left|].
    intros y ->%list_elem_of_singleton. cbn. lra.
  - cbn in Hm. destruct (IH _ Hm) as [Hin Hle].
    assert (Hxy : fle (fmax x y) (Num m)) by (apply Hle; left).
    destruct x as [a|], y as [b|]; cbn in Hxy; try contradiction.
    cbn [fmax] in Hin.
    pose proof (Rmax_l a b). pose proof (Rmax_r a b). split.
    + apply elem_of_cons in Hin as [Heq|Hin].
      * apply Num_inj in Heq.
        destruct (Rmax_cases a b) as [Hr|Hr]; rewrite Hr in Heq; subst m;
          [left|right; left].
      * right. right. exact Hin.
    + intros z Hz. apply elem_of_cons in Hz as [->|Hz]; [cbn; lra|].
      apply elem_of_cons in Hz as [->|Hz]; [cbn; lra|].
      apply Hle. right. exact Hz.
Qed.

Lemma foldl_Rmin_spec (l : list R) (x : R) :
  foldl Rmin x l ∈ x :: l /\ forall y, y ∈ x :: l -> (foldl Rmin x l <= y)%R.
Proof.
  revert x. induction l as [|y l IH]; intros x.
  - cbn. split; [left|]. intros y ->%list_elem_of_singleton. lra.
  - cbn. destruct (IH (Rmin x y)) as [Hin Hle].
    pose proof (Rmin_l x y). pose proof (Rmin_r x y).
    pose proof (Hle (Rmin x y) ltac:(left)). split.
    + apply elem_of_cons in Hin as [Heq|Hin].
      * rewrite Heq. destruct (Rmin_cases x y) as [Hr|Hr]; rewrite Hr;
          [left|right; left].
      * right. right. exact Hin.
    + intros z Hz. apply elem_of_cons in Hz as [->|Hz]; [lra|].
      apply elem_of_cons in Hz as [->|Hz]; [lra|].
      apply Hle. right. exact Hz.
Qed.

Lemma foldl_Rmax_spec (l : list R) (x : R) :
  foldl Rmax x l ∈ x :: l /\ forall y, y ∈ x :: l -> (y <= foldl Rmax x l)%R.
Proof.
  revert x. induction l as [|y l IH]; intros x.
  - cbn. split; [left|]. intros y ->%list_elem_of_singleton. lra.
  - cbn. destruct (IH (Rmax x y)) as [Hin Hle].
    pose proof (Rmax_l x y). pose proof (Rmax_r x y).
    pose proof (Hle (Rmax x y) ltac:(left)). split.
    + apply elem_of_cons in Hin as [Heq|Hin].
      * rewrite Heq. destruct (Rmax_cases x y) as [Hr|Hr]; rewrite Hr;
          [left|right; left].
      * right. right. exact Hin.
    + intros z Hz. apply elem_of_cons in Hz as [->|Hz]; [lra|].
      apply elem_of_cons in Hz as [->|Hz]; [lra|].
      apply Hle. right. exact Hz.
Qed.

Lemma elem_of_finite (s : list float) (r : R) : r ∈ finite s <-> Num r ∈ s.
Proof.
  unfold finite. rewrite list_elem_of_omap. split.
  - intros ([a|] & Hin & Heq); [|discriminate]. injection Heq as ->. exact Hin.
  - intros Hin. exists (Num r). split; [exact Hin|reflexivity].
Qed.

Lemma np_min_Num (a : list float) (m : R) :
  np_min a = Ok (Num m) -> Num m ∈ a /\ forall y, y ∈ a -> fle (Num m) y.
Proof.
  destruct a as [|x a]; [discriminate|]. intros [= Hm].
  apply foldl_fmin_Num, Hm.
Qed.

Lemma np_max_Num (a : list float) (m : R) :
  np_max a = Ok (Num m) -> Num m ∈ a /\ forall y, y ∈ a -> fle y (Num m).
Proof.
  destruct a as [|x a]; [discriminate|]. intros [= Hm].
  apply foldl_fmax_Num, Hm.
Qed.

Lemma series_min_Num (s : list float) (m : R) :
  series_min s = Num m -> Num m ∈ s /\ forall r, Num r ∈ s -> (m <= r)%R.
Proof.
  unfold series_min. destruct (finite s) as [|x xs] eqn:E; [discriminate|].
  intros [= <-]. destruct (foldl_Rmin_spec xs x) as [Hin Hle]. split.
  - apply elem_of_finite. rewrite E. exact Hin.
  - intros r Hr. apply Hle. rewrite <- E. apply elem_of_finite, Hr.
Qed.

Lemma series_max_Num (s : list float) (m : R) :
  series_max s = Num m -> Num m ∈ s /\ forall r, Num r ∈ s -> (r <= m)%R.
Proof.
  unfold series_max. destruct (finite s) as [|x xs] eqn:E; [discriminate|].
  intros [= <-]. destruct (foldl_Rmax_spec xs x) as [Hin Hle]. split.
  - apply elem_of_finite. rewrite E. exact Hin.
  - intros r Hr. apply Hle. rewrite <- E. apply elem_of_finite, Hr.
Qed.

Lemma np_min_Ok (a : list float) : a <> [] -> exists m, np_min a = Ok m.
Proof. destruct a; [contradiction|]. eexists. reflexivity. Qed.

Lemma np_max_Ok (a : list float) : a <> [] -> exists m, np_max a = Ok m.
Proof. destruct a; [contradiction|]. eexists. reflexivity. Qed.

Lemma axes_nonempty (df0 : DataFrame) (e : bool) :
  rows df0 <> [] ->
  fehs (__init__ df0 e) <> [] /\ ages (__init__ df0 e) <> [].
Proof.
  intros Hne. split; intros Hnil%unique_nil_inv%fmap_nil_inv; contradiction.
Qed.

(** X2: on a table without rows (of at least two columns, as a table that
    has the feh and age columns is) the range attributes raise ValueError,
    the minimum of an empty age axis at line 51, so the construction
    fails. *)
Theorem ranges_empty_table_raises (ncols : nat) (e : bool) :
  2 <= ncols ->
  init_ranges (__init__ {| columns := ncols; rows := [] |} e)
  = Raise ValueError.
Proof. intros _. reflexivity. Qed.

(** X2 on the empty table of five columns. *)
Lemma ranges_empty_table_raises_demo :
  2 <= 5
  /\ init_ranges (__init__ {| columns := 5; rows := [] |} false)
     = Raise ValueError.
Proof.
  split; [lia|]. apply (ranges_empty_table_raises 5 false). lia.
Defined.

Lemma init_ranges_narrow (df0 : DataFrame) (e : bool) :
  rows df0 <> [] -> columns df0 <= 2 ->
  init_ranges (__init__ df0 e) = Raise IndexError.
Proof.
  intros Hne Hcols. destruct (axes_nonempty df0 e Hne) as [Hf Ha].
  unfold init_ranges.
  destruct (np_min_Ok _ Ha) as [m1 ->]. destruct (np_max_Ok _ Ha) as [m2 ->].
  rewrite !Ok_bind. change (df (__init__ df0 e)) with df0.
  change (mass_col (__init__ df0 e)) with 2.
  unfold iloc. rewrite decide_False by lia. reflexivity.
Qed.

(** X3: on a table of at least two columns (as a table that has the feh and
    age columns is), the range attributes are computed exactly when the
    table has a row and a column 2; on a table with rows and exactly two
    columns they raise IndexError. *)
Theorem ranges_exist_iff (df0 : DataFrame) (e : bool) :
  2 <= columns df0 ->
  ((exists r, init_ranges (__init__ df0 e) = Ok r)
   <-> rows df0 <> [] /\ 2 < columns df0)
  /\ (rows df0 <> [] -> columns df0 = 2 ->
      init_ranges (__init__ df0 e) = Raise IndexError).
Proof.
  intros _.
  split; [split|intros Hne Hc; apply init_ranges_narrow; [exact Hne|lia]].
  - intros [r Hr].
    assert (Hne : rows df0 <> []).
    { intros Hnil. destruct df0 as [ncols rs]. cbn in Hnil. subst rs.
      discriminate. }
    split; [exact Hne|].
    destruct (decide (2 < columns df0)) as [Hc|Hc]; [exact Hc|].
    rewrite (init_ranges_narrow df0 e Hne) in Hr by lia. discriminate.
  - intros [Hne Hcols]. destruct (axes_nonempty df0 e Hne) as [Hf Ha].
    unfold init_ranges.
    destruct (np_min_Ok _ Ha) as [m1 ->]. destruct (np_max_Ok _ Ha) as [m2 ->].
    destruct (np_min_Ok _ Hf) as [m3 ->]. destruct (np_max_Ok _ Hf) as [m4 ->].
    change (df (__init__ df0 e)) with df0.
    change (mass_col (__init__ df0 e)) with 2.
    unfold iloc. rewrite decide_True by exact Hcols.
    eexists. reflexivity.
Qed.

Lemma init_ranges_inv (df0 : DataFrame) (e : bool) (r : ranges) :
  init_ranges (__init__ df0 e) = Ok r ->
  np_min (ages (__init__ df0 e)) = Ok (minage r)
  /\ np_max (ages (__init__ df0 e)) = Ok (maxage r)
  /\ minmass r = series_min (iloc_col df0 2)
  /\ maxmass r = series_max (iloc_col df0 2)
  /\ np_min (fehs (__init__ df0 e)) = Ok (minfeh r)
  /\ np_max (fehs (__init__ df0 e)) = Ok (maxfeh r).
Proof.
  unfold init_ranges.
  intros (m1 & H1 & (m2 & H2 & (m3 & H3 & (m4 & H4 & (m5 & H5
          & (m6 & H6 & [= <-])%bind_Ok)%bind_Ok)%bind_Ok)%bind_Ok)%bind_Ok)%bind_Ok.
  change (df (__init__ df0 e)) with df0 in H3, H4.
  change (mass_col (__init__ df0 e)) with 2 in H3, H4.
  unfold iloc in H3, H4. destruct (decide (2 < columns df0)); [|discriminate].
  injection H3 as <-. injection H4 as <-. cbn. auto 10.
Qed.

(** X4: a range attribute that is a number bounds the table: minfeh and maxfeh
    bound the metallicity of every row, minage and maxage its age, and minmass
    and maxmass every mass that is a number. *)
Theorem ranges_bound_the_table (df0 : DataFrame) (e : bool) (r : ranges) :
  init_ranges (__init__ df0 e) = Ok r ->
  forall x : row, x ∈ rows df0 ->
    (forall lo, minfeh r = Num lo -> fle (Num lo) (feh x))
    /\ (forall hi, maxfeh r = Num hi -> fle (feh x) (Num hi))
    /\ (forall lo, minage r = Num lo -> fle (Num lo) (log10_isochrone_age_yr x))
    /\ (forall hi, maxage r = Num hi -> fle (log10_isochrone_age_yr x) (Num hi))
    /\ (forall lo m, minmass r = Num lo -> values x !! 2 = Some (Num m) ->
                     (lo <= m)%R)
    /\ (forall hi m, maxmass r = Num hi -> values x !! 2 = Some (Num m) ->
                     (m <= hi)%R).
Proof.
  intros Hr x Hx.
  destruct (init_ranges_inv df0 e r Hr) as (Ha1 & Ha2 & Hm1 & Hm2 & Hf1 & Hf2).
  assert (Hfx : feh x ∈ fehs (__init__ df0 e)).
  { apply (proj2 (elem_of_unique _ _)), (list_elem_of_fmap_2 feh), Hx. }
  assert (Hax : log10_isochrone_age_yr x ∈ ages (__init__ df0 e)).
  { apply (proj2 (elem_of_unique _ _)),
      (list_elem_of_fmap_2 log10_isochrone_age_yr), Hx. }
  assert (Hmx : forall m, values x !! 2 = Some (Num m) -> Num m ∈ iloc_col df0 2).
  { intros m Hm. unfold iloc_col.
    apply list_elem_of_fmap. exists x. rewrite Hm. auto. }
  split_and!.
  - intros lo Hlo. rewrite Hlo in Hf1. apply (np_min_Num _ _ Hf1), Hfx.
  - intros hi Hhi. rewrite Hhi in Hf2. apply (np_max_Num _ _ Hf2), Hfx.
  - intros lo Hlo. rewrite Hlo in Ha1. apply (np_min_Num _ _ Ha1), Hax.
  - intros hi Hhi. rewrite Hhi in Ha2. apply (np_max_Num _ _ Ha2), Hax.
  - intros lo m Hlo Hm. rewrite Hm1 in Hlo.
    apply (series_min_Num _ _ Hlo), Hmx, Hm.
  - intros hi m Hhi Hm. rewrite Hm2 in Hhi.
    apply (series_max_Num _ _ Hhi), Hmx, Hm.
Qed.

(** X5: a range attribute that is a number is a value of the table: a
    metallicity, an age, or an entry of the mass column. *)
Theorem ranges_are_attained (df0 : DataFrame) (e : bool) (r : ranges) :
  init_ranges (__init__ df0 e) = Ok r ->
  (forall lo, minfeh r = Num lo -> Num lo ∈ feh <$> rows df0)
  /\ (forall hi, maxfeh r = Num hi -> Num hi ∈ feh <$> rows df0)
  /\ (forall lo, minage r = Num lo ->
                 Num lo ∈ log10_isochrone_age_yr <$> rows df0)
  /\ (forall hi, maxage r = Num hi ->
                 Num hi ∈ log10_isochrone_age_yr <$> rows df0)
  /\ (forall lo, minmass r = Num lo -> Num lo ∈ iloc_col df0 2)
  /\ (forall hi, maxmass r = Num hi -> Num hi ∈ iloc_col df0 2).
Proof.
  intros Hr.
  destruct (init_ranges_inv df0 e r Hr) as (Ha1 & Ha2 & Hm1 & Hm2 & Hf1 & Hf2).
  split_and!.
  - intros lo Hlo. rewrite Hlo in Hf1.
    apply (proj1 (elem_of_unique _ _)), (np_min_Num _ _ Hf1).
  - intros hi Hhi. rewrite Hhi in Hf2.
    apply (proj1 (elem_of_unique _ _)), (np_max_Num _ _ Hf2).
  - intros lo Hlo. rewrite Hlo in Ha1.
    apply (proj1 (elem_of_unique _ _)), (np_min_Num _ _ Ha1).
  - intros hi Hhi. rewrite Hhi in Ha2.
    apply (proj1 (elem_of_unique _ _)), (np_max_Num _ _ Ha2).
  - intros lo Hlo. rewrite Hm1 in Hlo. apply (series_min_Num _ _ Hlo).
  - intros hi Hhi. rewrite Hm2 in Hhi. apply (series_max_Num _ _ Hhi).
Qed.

(** X6: a query coordinate below the minimum attribute or above the maximum
    attribute of its axis lies beyond that axis (the metallicity axis, the age
    axis, or the mass column). *)
Theorem outside_the_ranges_is_beyond (df0 : DataFrame) (e : bool) (r : ranges)
  (q : R) :
  init_ranges (__init__ df0 e) = Ok r ->
  let self := __init__ df0 e in
  (flt (Num q) (minfeh r) \/ flt (maxfeh r) (Num q) -> beyond (fehs self) q)
  /\ (flt (Num q) (minage r) \/ flt (maxage r) (Num q) -> beyond (ages self) q)
  /\ (flt (Num q) (minmass r) \/ flt (maxmass r) (Num q) ->
      beyond (iloc_col df0 (mass_col self)) q).
Proof.
  intros Hr self.
  destruct (init_ranges_inv df0 e r Hr) as (Ha1 & Ha2 & Hm1 & Hm2 & Hf1 & Hf2).
  split_and!.
  - intros [Hq|Hq]; [left|right]; intros x Hx.
    + destruct (minfeh r) as [lo|]; [|contradiction]. cbn in Hq.
      pose proof (proj2 (np_min_Num _ _ Hf1) _ Hx) as Hle. cbn in Hle. lra.
    + destruct (maxfeh r) as [hi|]; [|contradiction]. cbn in Hq.
      pose proof (proj2 (np_max_Num _ _ Hf2) _ Hx) as Hle. cbn in Hle. lra.
  - intros [Hq|Hq]; [left|right]; intros x Hx.
    + destruct (minage r) as [lo|]; [|contradiction]. cbn in Hq.
      pose proof (proj2 (np_min_Num _ _ Ha1) _ Hx) as Hle. cbn in Hle. lra.
    + destruct (maxage r) as [hi|]; [|contradiction]. cbn in Hq.
      pose proof (proj2 (np_max_Num _ _ Ha2) _ Hx) as Hle. cbn in Hle. lra.
  - change (mass_col self) with 2.
    intros [Hq|Hq]; [left|right]; intros x Hx.
    + destruct (minmass r) as [lo|] eqn:E; [|contradiction]. cbn in Hq.
      symmetry in Hm1.
      pose proof (proj2 (series_min_Num _ _ Hm1) _ Hx) as Hle. lra.
    + destruct (maxmass r) as [hi|] eqn:E; [|contradiction]. cbn in Hq.
      symmetry in Hm2.
      pose proof (proj2 (series_max_Num _ _ Hm2) _ Hx) as Hle. lra.
Qed.

Lemma init_ranges_nonempty (df0 : DataFrame) (e : bool) (r : ranges) :
  init_ranges (__init__ df0 e) = Ok r -> rows df0 <> [].
Proof.
  intros Hr Hnil. destruct df0 as [c rs]. simpl in Hnil. subst rs.
  discriminate Hr.
Qed.

Lemma init_ranges_df_demo :
  exists r, init_ranges (__init__ df_demo false) = Ok r.
Proof.
  destruct (axes_nonempty df_demo false ltac:(discriminate)) as [Hf Ha].
  unfold init_ranges.
  destruct (np_min_Ok _ Ha) as [m1 ->]. destruct (np_max_Ok _ Ha) as [m2 ->].
  destruct (np_min_Ok _ Hf) as [m3 ->]. destruct (np_max_Ok _ Hf) as [m4 ->].
  eexists. reflexivity.
Qed.

(** X3 on [df_demo]. *)
Lemma ranges_exist_iff_demo :
  2 <= columns df_demo /\ rows df_demo <> [] /\ 2 < columns df_demo
  /\ exists r, init_ranges (__init__ df_demo false) = Ok r.
Proof.
  split; [cbn; lia|]. split; [discriminate|]. split; [cbn; lia|].
  apply (proj1 (ranges_exist_iff df_demo false ltac:(cbn; lia))).
  split; [discriminate|cbn; lia].
Defined.

(** X4 on [df_demo], at its last row. *)
Lemma ranges_bound_the_table_demo :
  exists r, init_ranges (__init__ df_demo false) = Ok r
            /\ (forall lo, minfeh r = Num lo -> fle (Num lo) (Num 0))
            /\ (forall hi, maxmass r = Num hi -> (1 <= hi)%R).
Proof.
  destruct init_ranges_df_demo as [r Hr]. exists r. split; [exact Hr|].
  destruct (ranges_bound_the_table df_demo false r Hr
              {| feh := Num 0; log10_isochrone_age_yr := Num 9;
                 values := [Num 0; Num 9; Num 1; Num 3.75; Num 4.5] |})
    as (Hf & _ & _ & _ & _ & Hm).
  { cbn. do 4 right. left. }
  split; [exact Hf|].
  intros hi Hhi. exact (Hm hi 1%R Hhi eq_refl).
Defined.

(** X5 on [df_demo], whose only age is 9. *)
Lemma ranges_are_attained_demo :
  exists r, init_ranges (__init__ df_demo false) = Ok r
            /\ forall lo, minage r = Num lo -> lo = 9%R.
Proof.
  destruct init_ranges_df_demo as [r Hr]. exists r. split; [exact Hr|].
  intros lo Hlo.
  destruct (ranges_are_attained df_demo false r Hr) as (_ & _ & Ha & _).
  specialize (Ha lo Hlo). cbn in Ha.
  repeat (apply elem_of_cons in Ha as [Ha|Ha]; [float_lra|]).
  inversion Ha.
Defined.

(** X6 on [df_demo], at metallicity 1. *)
Lemma outside_the_ranges_is_beyond_demo :
  exists r, init_ranges (__init__ df_demo false) = Ok r
            /\ (flt (Num 1) (minfeh r) \/ flt (maxfeh r) (Num 1) ->
                beyond (fehs (__init__ df_demo false)) 1).
Proof.
  destruct init_ranges_df_demo as [r Hr]. exists r. split; [exact Hr|].
  exact (proj1 (outside_the_ranges_is_beyond df_demo false r 1 Hr)).
Defined.

(** ** The grid builder *)

(** X7: for an engine constructed on a rectangular table, the grid builder
    returns exactly when every pair of a metallicity and an age of the table
    labels at least one row. *)
Theorem make_grid_builds_iff (df0 : DataFrame) (e : bool) (r : ranges) :
  rectangular df0 ->
  init_ranges (__init__ df0 e) = Ok r ->
  (exists self', _make_grid (__init__ df0 e) = Ok self') <-> complete df0.
Proof.
  intros Hrect Hr. split.
  - intros [self' Hrun] f a Hf Ha. apply (_make_grid_complete _ _ Hrun).
    + exact (proj2 (elem_of_unique _ _) Hf).
    + exact (proj2 (elem_of_unique _ _) Ha).
  - intros Hc. eexists.
    exact (_make_grid_init df0 e Hrect (init_ranges_nonempty df0 e r Hr) Hc).
Qed.

(** X7 on [df_demo]. *)
Lemma make_grid_builds_iff_demo :
  rectangular df_demo
  /\ (exists r, init_ranges (__init__ df_demo false) = Ok r)
  /\ exists self', _make_grid (__init__ df_demo false) = Ok self'.
Proof.
  split; [exact rectangular_df_demo|]. split; [exact init_ranges_df_demo|].
  destruct init_ranges_df_demo as [r Hr].
  exact (proj2 (make_grid_builds_iff df_demo false r rectangular_df_demo Hr)
           complete_df_demo).
Defined.

(** X8: when a metallicity and an age of the axes label no row together, the
    grid builder raises KeyError. *)
Theorem make_grid_missing_pair_raises (self : MIST_Isochrone) (f a : float) :
  f ∈ fehs self -> a ∈ ages self -> track (df self) f a = [] ->
  _make_grid self = Raise KeyError.
Proof. apply _make_grid_gap. Qed.

(** X8 on [df_gap], at the pair (0, 9). *)
Lemma make_grid_missing_pair_raises_example :
  Num 0 ∈ fehs (__init__ df_gap false)
  /\ Num 9 ∈ ages (__init__ df_gap false)
  /\ track (df (__init__ df_gap false)) (Num 0) (Num 9) = []
  /\ _make_grid (__init__ df_gap false) = Raise KeyError.
Proof.
  assert (Hf : Num 0 ∈ fehs (__init__ df_gap false)).
  { apply (proj2 (elem_of_unique _ _)). cbn. right. right. left. }
  assert (Ha : Num 9 ∈ ages (__init__ df_gap false)).
  { apply (proj2 (elem_of_unique _ _)). cbn. left. }
  split; [exact Hf|]. split; [exact Ha|]. split; [exact track_df_gap|].
  exact (make_grid_missing_pair_raises (__init__ df_gap false) (Num 0) (Num 9)
           Hf Ha track_df_gap).
Defined.

Lemma _make_grid_frame (self self' : MIST_Isochrone) :
  _make_grid self = Ok self' ->
  exists data lens, self' = set__grid self data lens.
Proof.
  unfold _make_grid.
  intros (df_list & _ & (lensT & _ & (L & _ & (data & _ & [= <-])%bind_Ok)%bind_Ok)%bind_Ok)%bind_Ok.
  eexists _, _. reflexivity.
Qed.

(** X9: a second run of the grid builder on the engine it returned gives that
    engine again; the builder changes nothing but the two cache attributes. *)
Theorem make_grid_idempotent (self self' : MIST_Isochrone) :
  _make_grid self = Ok self' ->
  _make_grid self' = Ok self'
  /\ df self' = df self /\ fehs self' = fehs self /\ ages self' = ages self
  /\ ext_table self' = ext_table self /\ cells self' = cells self
  /\ _mag self' = _mag self /\ mag self' = mag self.
Proof.
  intros Hrun. destruct (_make_grid_frame self self' Hrun) as (data & lens & ->).
  split; [|repeat split].
  revert Hrun. unfold _make_grid. cbn [df fehs ages Nfeh Nage Ncols set__grid].
  destruct (mapM _ (ages self)) as [df_list|]; [|discriminate]. rewrite !Ok_bind.
  destruct (mapM _ (seq 0 (Nage self))) as [lensT|]; [|discriminate].
  rewrite !Ok_bind.
  destruct (amax (np_T lensT)) as [L|]; [|discriminate]. rewrite !Ok_bind.
  destruct (for_ _ _ _) as [data'|]; [|discriminate]. rewrite !Ok_bind.
  intros [= -> ->]. reflexivity.
Qed.

(** X9 on [df_demo]. *)
Lemma make_grid_idempotent_demo :
  exists self', _make_grid (__init__ df_demo false) = Ok self'
                /\ _make_grid self' = Ok self'.
Proof.
  eexists. split.
  - exact (_make_grid_init df_demo false rectangular_df_demo
             ltac:(discriminate) complete_df_demo).
  - exact (proj1 (make_grid_idempotent _ _
                    (_make_grid_init df_demo false rectangular_df_demo
                       ltac:(discriminate) complete_df_demo))).
Defined.

Lemma sum_list_app_nat (l k : list nat) :
  sum_list (l ++ k) = sum_list l + sum_list k.
Proof. induction l as [|x l IH]; cbn; [reflexivity|]. rewrite IH. lia. Qed.

Lemma sum_list_join (ls : list (list nat)) :
  sum_list (mjoin ls) = sum_list (sum_list <$> ls).
Proof.
  induction ls as [|l ls IH]; [reflexivity|].
  change (sum_list (l ++ mjoin ls) = sum_list l + sum_list (sum_list <$> ls)).
  rewrite sum_list_app_nat, IH. reflexivity.
Qed.

Lemma sum_list_fmap_add {A : Type} (g h : A -> nat) (l : list A) :
  sum_list ((fun x => g x + h x) <$> l)
  = sum_list (g <$> l) + sum_list (h <$> l).
Proof. induction l as [|x l IH]; cbn; [reflexivity|]. rewrite IH. lia. Qed.

Lemma sum_list_fmap_zero {A : Type} (g : A -> nat) (l : list A) :
  (forall x, x ∈ l -> g x = 0) -> sum_list (g <$> l) = 0.
Proof.
  induction l as [|x l IH]; intros Hg; cbn; [reflexivity|].
  rewrite Hg by left. rewrite IH; [reflexivity|].
  intros y Hy. apply Hg. right. exact Hy.
Qed.

(** One element of a duplicate-free list is counted once. *)
Lemma sum_list_indicator {A : Type} (g : A -> nat) (x : A) (n : nat)
  (l : list A) :
  NoDup l -> x ∈ l -> g x = n -> (forall y, y ∈ l -> y <> x -> g y = 0) ->
  sum_list (g <$> l) = n.
Proof.
  induction l as [|y l IH]; intros Hnd Hx Hgx Hg; [inversion Hx|].
  apply NoDup_cons in Hnd as [Hy Hnd]. cbn.
  apply elem_of_cons in Hx as [->|Hx].
  - rewrite Hgx. rewrite sum_list_fmap_zero; [lia|].
    intros z Hz. apply Hg; [right; exact Hz|]. intros ->. contradiction.
  - rewrite (Hg y); [|left|intros ->; contradiction].
    rewrite IH; auto. intros z Hz. apply Hg. right. exact Hz.
Qed.

Lemma track_lens_sum (ncols : nat) (l : list row) (fs as_ : list float) :
  NoDup fs -> NoDup as_ ->
  Forall (fun r => feh r ∈ fs /\ log10_isochrone_age_yr r ∈ as_) l ->
  sum_list (mjoin ((fun f =>
      (fun a => length (track {| columns := ncols; rows := l |} f a)) <$> as_)
    <$> fs))
  = length l.
Proof.
  intros Hfs Has Hl. rewrite sum_list_join. unfold track.
  rewrite <- list_fmap_compose. cbn [rows].
  induction l as [|r l IH].
  - apply sum_list_fmap_zero. intros f _. cbv beta delta [compose].
    apply sum_list_fmap_zero. intros a _. reflexivity.
  - apply Forall_cons in Hl as [[Hf Ha] Hl]. specialize (IH Hl).
    cbn [length]. rewrite <- IH. clear IH.
    transitivity
      (sum_list ((fun f =>
          sum_list ((fun a => if decide (feh r = f /\ log10_isochrone_age_yr r = a)
                              then 1 else 0) <$> as_)
          + sum_list ((fun a => length (filter (fun r0 => feh r0 = f
                         /\ log10_isochrone_age_yr r0 = a) l)) <$> as_)) <$> fs)).
    + apply (f_equal sum_list). apply list_fmap_ext. intros _ f _.
      cbv beta delta [compose].
      rewrite <- sum_list_fmap_add. apply (f_equal sum_list).
      apply list_fmap_ext. intros _ a _. cbv beta. rewrite filter_cons.
      destruct (decide (feh r = f /\ log10_isochrone_age_yr r = a)); reflexivity.
    + rewrite sum_list_fmap_add. cbv beta delta [compose].
      rewrite (sum_list_indicator _ (feh r) 1 fs Hfs Hf); [reflexivity| |].
      * apply (sum_list_indicator _ (log10_isochrone_age_yr r) 1 as_ Has Ha).
        -- rewrite decide_True by tauto. reflexivity.
        -- intros a _ Hne. rewrite decide_False; [reflexivity|].
           intros [_ Heq]. congruence.
      * intros f _ Hne. apply sum_list_fmap_zero. intros a _.
        rewrite decide_False; [reflexivity|]. intros [Heq _]. congruence.
Qed.

(** X10: on a table in which some (feh, age) label repeats, in a built grid
    every entry of the Length Table is at least 1 and at most L, L is one of
    the entries, and the entries add up to the number of rows of the table:
    every row is in exactly one track. *)
Theorem length_table_counts_every_row (df0 : DataFrame) (e : bool)
  (self' : MIST_Isochrone) :
  rectangular df0 ->
  ~ is_unique df0 ->
  _make_grid (__init__ df0 e) = Ok self' ->
  exists (lens : list (list nat)) (L : nat),
    _grid_Ns self' = Some lens /\ amax lens = Ok L
    /\ L ∈ mjoin lens
    /\ (forall N, N ∈ mjoin lens -> 1 <= N <= L)
    /\ sum_list (mjoin lens) = length (rows df0).
Proof.
  intros Hrect Hrep Hrun.
  pose proof (_make_grid_init_inv df0 e self' Hrect Hrun) as ->.
  cbn zeta. set (self := __init__ df0 e).
  set (lens := track_lens df0 (fehs self) (ages self)).
  assert (Hpos : forall N, N ∈ mjoin lens -> 1 <= N).
  { intros N (f & a & Hf & Ha & ->)%elem_of_track_lens.
    rewrite (selected_Frame df0 f a Hrep). cbn [len].
    assert (Hne : track df0 f a <> [])
      by exact (_make_grid_complete _ _ Hrun f a Hf Ha).
    destruct (track df0 f a); [contradiction|cbn; lia]. }
  assert (Hne : mjoin lens <> []).
  { pose proof (_make_grid_init_nonempty df0 e _ Hrun) as Hrows.
    destruct (rows df0) as [|r rs] eqn:Er; [contradiction|].
    intros Hnil.
    assert (Hin : len (selected df0 (feh r) (log10_isochrone_age_yr r))
                  ∈ mjoin lens).
    { apply track_lens_elem; apply (proj2 (elem_of_unique _ _));
        rewrite Er; left. }
    rewrite Hnil in Hin. inversion Hin. }
  exists lens, (max_list (mjoin lens)). split_and!.
  - reflexivity.
  - apply amax_Ok, Hne.
  - apply max_list_elem_of, Hne.
  - intros N HN. split; [apply Hpos, HN|apply max_list_elem_of_le, HN].
  - unfold lens. rewrite (track_lens_Frame df0 _ _ Hrep).
    destruct df0 as [ncols rs]. apply track_lens_sum.
    + apply NoDup_unique.
    + apply NoDup_unique.
    + apply Forall_forall. intros r Hr. split; apply (proj2 (elem_of_unique _ _)).
      * apply (list_elem_of_fmap_2 feh), Hr.
      * apply (list_elem_of_fmap_2 log10_isochrone_age_yr), Hr.
Qed.

(** X10 on [df_demo], of five rows. *)
Lemma length_table_counts_every_row_demo :
  rectangular df_demo /\ ~ is_unique df_demo
  /\ exists self',
       _make_grid (__init__ df_demo false) = Ok self'
       /\ exists lens, _grid_Ns self' = Some lens /\ sum_list (mjoin lens) = 5.
Proof.
  split; [exact rectangular_df_demo|]. split; [exact not_is_unique_df_demo|].
  eexists. split.
  - exact (_make_grid_init df_demo false rectangular_df_demo
             ltac:(discriminate) complete_df_demo).
  - destruct (length_table_counts_every_row df_demo false _ rectangular_df_demo
               not_is_unique_df_demo
               (_make_grid_init df_demo false rectangular_df_demo
                  ltac:(discriminate) complete_df_demo))
      as (lens & L & Hns & _ & _ & _ & Hsum).
    exists lens. split; [exact Hns|exact Hsum].
Defined.

(** ** The cached properties and the entry point *)

(** X11: the first access to [grid] on an engine with an empty cache builds
    the grid and caches both arrays; after it, [grid] and [grid_Ns] return the
    cached arrays and leave the engine as it is, and the values are those of
    the accessors [grid] and [grid_Ns] used above. *)
Theorem grid_is_built_once (self self' : MIST_Isochrone) (g : array4) :
  _grid self = None -> _grid_Ns self = None ->
  grid_property self = Ok (g, self') ->
  _make_grid self = Ok self'
  /\ grid_property self' = Ok (g, self')
  /\ grid self = Ok g /\ grid self' = Ok g
  /\ exists ns, grid_Ns_property self' = Ok (ns, self')
                /\ grid_Ns self = Ok ns /\ grid_Ns self' = Ok ns.
Proof.
  intros Hg Hns. unfold grid_property, grid, grid_Ns, grid_Ns_property.
  rewrite Hg, Hns.
  intros (s1 & Hrun & Hs1)%bind_Ok.
  destruct (_make_grid_frame self s1 Hrun) as (data & lens & ->).
  cbn in Hs1. injection Hs1 as <- <-.
  rewrite Hrun. cbn. split_and!; try reflexivity.
  exists lens. split_and!; reflexivity.
Qed.

(** X11 on [df_demo]. *)
Lemma grid_is_built_once_demo :
  exists (g : array4) (self' : MIST_Isochrone),
    grid_property (__init__ df_demo false) = Ok (g, self')
    /\ grid_property self' = Ok (g, self').
Proof.
  assert (Hrun := _make_grid_init df_demo false rectangular_df_demo
                    ltac:(discriminate) complete_df_demo).
  cbn zeta in Hrun.
  assert (Hex : exists g self',
             grid_property (__init__ df_demo false) = Ok (g, self')).
  { unfold grid_property.
    change (_grid (__init__ df_demo false)) with (@None array4).
    rewrite Hrun. eexists _, _. reflexivity. }
  destruct Hex as (g & self' & Hp). exists g, self'.
  split; [exact Hp|].
  exact (proj1 (proj2 (grid_is_built_once (__init__ df_demo false) self' g
                         eq_refl eq_refl Hp))).
Defined.

Section entry.
Context {utils_module : utils.t}.

(** X12: when the grid cannot be built, the entry point raises the builder's
    exception for every query, whatever [.utils] does: the [except] branch
    builds the grid again. *)
Theorem entry_raises_what_the_builder_raises (self : MIST_Isochrone)
  (e : exn) (q_mass q_age q_feh : R) (icol : nat) :
  _grid self = None -> _make_grid self = Raise e ->
  interp_value self q_mass q_age q_feh icol = Raise e.
Proof.
  intros Hg Hrun. unfold interp_value, grid. rewrite Hg, Hrun. reflexivity.
Qed.

(** X13: with the grid at hand, the entry point returns a scalar exactly when
    the scalar helper returns; when the scalar helper raises, whatever the
    exception, the result is the vector helper's on the one-element arrays: an
    array, or the vector helper's exception. *)
Theorem entry_dispatch (self : MIST_Isochrone) (g : array4)
  (ns : list (list nat)) (q_mass q_age q_feh : R) (icol : nat) :
  grid self = Ok g -> grid_Ns self = Ok ns ->
  let scalar :=
    utils.interp_value q_mass q_age q_feh icol g (mass_col self) (ages self)
      (fehs self) ns in
  let vector :=
    utils.interp_values [q_mass] [q_age] [q_feh] icol g (mass_col self)
      (ages self) (fehs self) ns in
  let out := interp_value self q_mass q_age q_feh icol in
  (forall v, out = Ok (Scalar v) <-> scalar = Ok v)
  /\ (forall xs, out = Ok (Array xs)
                 <-> (exists e0, scalar = Raise e0) /\ vector = Ok xs)
  /\ (forall e, out = Raise e
                <-> (exists e0, scalar = Raise e0) /\ vector = Raise e).
Proof.
  intros Hg Hns scalar vector out. subst out. unfold interp_value.
  rewrite Hg, Hns, !Ok_bind. fold scalar vector.
  destruct scalar as [v0|e0]; [|destruct vector as [xs0|e1]]; cbn; split_and!.
  - intros v. split; [intros [= <-]|intros [= <-]]; reflexivity.
  - intros xs. split; [discriminate|intros [[e0 [=]] _]].
  - intros e. split; [discriminate|intros [[e0 [=]] _]].
  - intros v. split; discriminate.
  - intros xs. split; [intros [= <-]; eauto|intros [_ [= <-]]; reflexivity].
  - intros e. split; [discriminate|intros [_ [=]]].
  - intros v. split; discriminate.
  - intros xs. split; [discriminate|intros [_ [=]]].
  - intros e. split; [intros [= <-]; eauto|intros [_ [= <-]]; reflexivity].
Qed.

End entry.

(** X12 on [df_gap]. *)
Lemma entry_raises_what_the_builder_raises_demo :
  _grid (__init__ df_gap false) = None
  /\ _make_grid (__init__ df_gap false) = Raise KeyError
  /\ interp_value (utils_module := utils_icol) (__init__ df_gap false) 1 9 0 4
     = Raise KeyError.
Proof.
  assert (Hrun : _make_grid (__init__ df_gap false) = Raise KeyError).
  { apply (_make_grid_gap _ (Num 0) (Num 9)).
    - apply (proj2 (elem_of_unique _ _)). cbn. right. right. left.
    - apply (proj2 (elem_of_unique _ _)). cbn. left.
    - exact track_df_gap. }
  split; [reflexivity|]. split; [exact Hrun|].
  exact (entry_raises_what_the_builder_raises (utils_module := utils_icol)
           (__init__ df_gap false) KeyError 1 9 0 4 eq_refl Hrun).
Defined.

(** X13 on [df_demo], with a scalar helper that returns. *)
Lemma entry_dispatch_demo :
  exists g ns,
    grid (__init__ df_demo false) = Ok g
    /\ grid_Ns (__init__ df_demo false) = Ok ns
    /\ interp_value (utils_module := utils_icol) (__init__ df_demo false)
         1 9 0 4 = Ok (Scalar (Num (INR 4))).
Proof.
  destruct (grid_init df_demo false false rectangular_df_demo
              ltac:(discriminate) complete_df_demo) as [Hg Hns].
  change (set_ext_table (__init__ df_demo false) false)
    with (__init__ df_demo false) in Hg, Hns.
  eexists _, _. split; [exact Hg|]. split; [exact Hns|].
  apply (proj1 (entry_dispatch (utils_module := utils_icol)
                  (__init__ df_demo false) _ _ 1 9 0 4 Hg Hns)).
  reflexivity.
Defined.

(** ** The derived quantities *)

Lemma elem_of_vmap (f : float -> float) (v : value) (y : float) :
  y ∈ value_elems (vmap f v) <-> exists x, x ∈ value_elems v /\ y = f x.
Proof.
  destruct v as [x|xs]; cbn.
  - rewrite list_elem_of_singleton. split.
    + intros ->. exists x. split; [left|reflexivity].
    + intros (x' & ->%list_elem_of_singleton & ->). reflexivity.
  - rewrite list_elem_of_fmap. split; intros (x & H1 & H2); exists x; auto.
Qed.

Lemma fmap_Ok {A B : Type} (f : A -> B) (m : result A) (b : B) :
  f <$> m = Ok b <-> exists a, m = Ok a /\ b = f a.
Proof.
  destruct m as [a|e]; cbn.
  - split; [intros [= <-]; exists a; auto|intros (a' & [= ->] & ->); reflexivity].
  - split; [discriminate|intros (a' & [=] & _)].
Qed.

Section derived.
Context {astropy_module : astropy.t} {utils_module : utils.t}.

(** X14: [mass] returns its first argument whatever follows it and raises
    IndexError without arguments; [radius] raises IndexError without arguments
    and TypeError with one, two or more than three; [Teff] raises TypeError
    unless it has three. *)
Theorem accessors_argument_count (self : MIST_Isochrone) :
  mass self [] = Raise IndexError
  /\ (forall m rest, mass self (m :: rest) = Ok m)
  /\ radius self [] = Raise IndexError
  /\ (forall args, args <> [] -> length args <> 3 ->
                   radius self args = Raise TypeError)
  /\ (forall args, length args <> 3 -> Teff self args = Raise TypeError).
Proof.
  split_and!; try reflexivity.
  - intros [|m [|a [|f [|x args]]]] Hne Hlen; cbn in Hlen; try contradiction;
      try lia; reflexivity.
  - intros [|m [|a [|f [|x args]]]] Hlen; cbn in Hlen; try lia; reflexivity.
Qed.

Lemma radius_inv (self : MIST_Isochrone) (args : list R) (v : value) :
  radius self args = Ok v ->
  exists m a f g,
    args = [m; a; f] /\ logg self m a f = Ok g
    /\ v = vmap (fun g => fdiv (np_sqrt (fdiv (Num (G * m * MSUN)) (pow10 g)))
                               (Num RSUN)) g.
Proof.
  unfold radius, mass, splat.
  intros (m & Hm & (g & Hg & [= <-])%bind_Ok)%bind_Ok.
  destruct args as [|m' [|a [|f [|x args]]]]; try discriminate.
  cbn in Hm. injection Hm as ->. exists m, a, f, g. auto.
Qed.

(** X15: with a positive solar radius constant, a radius that is a number is
    not negative. *)
Theorem radius_is_not_negative (self : MIST_Isochrone) (args : list R)
  (v : value) (x : R) :
  (0 < RSUN)%R -> radius self args = Ok v -> Num x ∈ value_elems v ->
  (0 <= x)%R.
Proof.
  intros HR (m & a & f & g & -> & _ & ->)%radius_inv Hx.
  apply elem_of_vmap in Hx as (y & _ & Hx).
  destruct y as [gy|]; [|discriminate]. cbn in Hx.
  destruct (decide (Rpower 10 gy = 0%R)); [discriminate|]. cbn in Hx.
  destruct (decide (G * m * MSUN / Rpower 10 gy < 0)%R); [discriminate|].
  cbn in Hx. destruct (decide (RSUN = 0%R)); [discriminate|].
  injection Hx as ->.
  apply Rmult_le_pos; [apply sqrt_pos|].
  left. apply Rinv_0_lt_compat, HR.
Qed.

(** X16: with a positive G * MSUN, the radius at a negative mass is NaN in
    every element. *)
Theorem radius_of_negative_mass_is_nan (self : MIST_Isochrone)
  (m a f : R) (g : value) :
  (0 < G * MSUN)%R -> (m < 0)%R -> logg self m a f = Ok g ->
  radius self [m; a; f] = Ok (vmap (fun _ => NaN) g).
Proof.
  intros HG Hm Hg. unfold radius, mass. cbn [getitem lookup list_lookup splat].
  rewrite Ok_bind, Hg, Ok_bind. f_equal.
  assert (Hcell : forall y : float,
             fdiv (np_sqrt (fdiv (Num (G * m * MSUN)) (pow10 y))) (Num RSUN)
             = NaN).
  { intros [gy|]; [|reflexivity]. cbn.
    assert (Hp : (0 < Rpower 10 gy)%R) by (unfold Rpower; apply exp_pos).
    rewrite decide_False by lra. cbn.
    rewrite decide_True; [reflexivity|].
    assert (Hneg : (G * m * MSUN < 0)%R) by nra.
    pose proof (Rinv_0_lt_compat _ Hp) as Hinv.
    unfold Rdiv. nra. }
  destruct g as [y|ys]; cbn [vmap].
  - rewrite Hcell. reflexivity.
  - f_equal. apply list_fmap_ext. intros _ y _. apply Hcell.
Qed.

End derived.

(** X14 on [radius] with two arguments. *)
Lemma accessors_argument_count_demo :
  radius (astropy_module := None) (utils_module := utils_icol)
    (__init__ df_demo false) [1%R; 9%R]
  = Raise TypeError.
Proof.
  apply (accessors_argument_count (astropy_module := None)
           (utils_module := utils_icol) (__init__ df_demo false));
    [discriminate|cbn; lia].
Defined.

Lemma RSUN_fallback_pos : (0 < RSUN (astropy_module := None))%R.
Proof. unfold RSUN, astropy.import. lra. Qed.

Lemma G_MSUN_fallback_pos :
  (0 < G (astropy_module := None) * MSUN (astropy_module := None))%R.
Proof. unfold G, MSUN, astropy.import. lra. Qed.

Lemma radius_df_demo :
  radius (astropy_module := None) (utils_module := utils_icol)
    (__init__ df_demo false) [1%R; 9%R; 0%R]
  = Ok (Scalar (Num (sqrt (6.67e-11 * 1 * 1.99e33 / Rpower 10 (INR 4))
                     / 6.96e10))).
Proof.
  unfold radius, mass. cbn [getitem lookup list_lookup splat].
  unfold logg. rewrite Ok_bind, interp_value_df_demo, Ok_bind.
  cbn [vmap pow10 fdiv]. unfold G, MSUN, RSUN, astropy.import.
  assert (Hp : (0 < Rpower 10 (INR 4))%R) by (unfold Rpower; apply exp_pos).
  rewrite decide_False by lra. cbn [np_sqrt].
  rewrite decide_False.
  2:{ apply Rle_not_lt. apply Rmult_le_pos; [lra|].
      left. apply Rinv_0_lt_compat, Hp. }
  cbn [fdiv]. rewrite decide_False by lra. reflexivity.
Qed.

(** X15 on [df_demo], with the fallback constants. *)
Lemma radius_is_not_negative_demo :
  (0 < RSUN (astropy_module := None))%R
  /\ radius (astropy_module := None) (utils_module := utils_icol)
       (__init__ df_demo false) [1%R; 9%R; 0%R]
     = Ok (Scalar (Num (sqrt (6.67e-11 * 1 * 1.99e33 / Rpower 10 (INR 4))
                        / 6.96e10)))
  /\ (0 <= sqrt (6.67e-11 * 1 * 1.99e33 / Rpower 10 (INR 4)) / 6.96e10)%R.
Proof.
  split; [exact RSUN_fallback_pos|]. split; [exact radius_df_demo|].
  apply (radius_is_not_negative (astropy_module := None)
           (utils_module := utils_icol) (__init__ df_demo false)
           [1%R; 9%R; 0%R] _ _ RSUN_fallback_pos radius_df_demo).
  left.
Defined.

(** X16 on [df_demo], at mass -1. *)
Lemma radius_of_negative_mass_is_nan_demo :
  (0 < G (astropy_module := None) * MSUN (astropy_module := None))%R
  /\ (-1 < 0)%R
  /\ radius (astropy_module := None) (utils_module := utils_icol)
       (__init__ df_demo false) [(-1)%R; 9%R; 0%R]
     = Ok (Scalar NaN).
Proof.
  split; [exact G_MSUN_fallback_pos|]. split; [lra|].
  exact (radius_of_negative_mass_is_nan (astropy_module := None)
           (utils_module := utils_icol) (__init__ df_demo false) (-1) 9 0
           (Scalar (Num (INR 4))) G_MSUN_fallback_pos ltac:(lra)
           (interp_value_df_demo (-1) 9 0 4)).
Defined.

(** ** The magnitude functions *)

Lemma dict_get_missing {V : Type} (d : dict V) (k : string) :
  k ∉ d.*1 -> dict_get d k = Raise KeyError.
Proof.
  intros Hk. unfold dict_get.
  rewrite (proj2 (list_find_None (fun kv : string * V => kv.1 = k) d));
    [reflexivity|].
  apply Forall_forall. intros kv Hkv Heq. apply Hk.
  rewrite <- Heq. apply (list_elem_of_fmap_2 fst), Hkv.
Qed.

Lemma dict_get_elem {V : Type} (d : dict V) (k : string) (v : V) :
  dict_get d k = Ok v -> (k, v) ∈ d.
Proof.
  unfold dict_get.
  destruct (list_find _ d) as [[i kv]|] eqn:E; [|discriminate].
  intros [= <-]. apply list_find_Some in E as (Hi & Hk & _).
  cbn in Hk. subst k. destruct kv as [k v]. eapply list_elem_of_lookup_2, Hi.
Qed.

Lemma log10_10 : np_log10 10 = Num 1.
Proof.
  unfold np_log10. rewrite decide_True by lra. f_equal.
  assert (0 < ln 10)%R. { rewrite <- ln_1. apply ln_increasing; lra. }
  field. lra.
Qed.

Lemma distance_modulus_pos (d : R) :
  (0 < d)%R -> distance_modulus d = Num (5 * (ln d / ln 10) - 5).
Proof.
  intros Hd. unfold distance_modulus, np_log10.
  rewrite decide_True by exact Hd. reflexivity.
Qed.

Lemma distance_modulus_neg (d : R) :
  (d < 0)%R -> distance_modulus d = NaN.
Proof.
  intros Hd. unfold distance_modulus, np_log10.
  rewrite decide_False by lra. reflexivity.
Qed.

Lemma vadd_0 (v : value) : vadd v (Num 0) = v.
Proof.
  destruct v as [[x|]|xs]; cbn.
  - rewrite Rplus_0_r. reflexivity.
  - reflexivity.
  - f_equal. rewrite <- (list_fmap_id xs) at 2. apply list_fmap_ext.
    intros _ [x|] _; cbn; [rewrite Rplus_0_r|]; reflexivity.
Qed.

Lemma vadd_NaN (v : value) : vadd v NaN = vmap (fun _ => NaN) v.
Proof.
  destruct v as [[x|]|xs]; cbn; try reflexivity.
  f_equal. apply list_fmap_ext. intros _ [x|] _; reflexivity.
Qed.

Lemma vadd_all_NaN (v : value) (x : float) :
  vadd (vmap (fun _ => NaN) v) x = vmap (fun _ => NaN) v.
Proof.
  destruct v as [y|ys]; cbn; [reflexivity|].
  f_equal. rewrite <- list_fmap_compose. reflexivity.
Qed.

Section photometry.
Context {extinction_module : extinction.t} {utils_module : utils.t}.

Lemma extinction_A_zero (b : string) (x_ext : R) (ext_table : bool) :
  extinction_A b 0 x_ext ext_table = 0%R.
Proof.
  unfold extinction_A. destruct ext_table; [|destruct (decide _)]; lra.
Qed.

(** X17: [self.mag] has no entry for a band outside u, g, r, i, z: the call
    raises KeyError. *)
Theorem unknown_band_is_a_key_error (df0 : DataFrame) (e : bool) (b : string)
  (m a f : R) (distance AV x_ext : option R) (ext_table : option bool) :
  b ∉ bands (__init__ df0 e) ->
  mag_call (__init__ df0 e) b m a f distance AV x_ext ext_table
  = Raise KeyError.
Proof.
  intros Hb. unfold mag_call. rewrite dict_get_missing; [reflexivity|exact Hb].
Qed.

(** X18: called with the default distance and the default AV, the magnitude
    function of a band returns the intrinsic term unchanged, whatever the
    extinction parameter and table flag. *)
Theorem default_magnitude_is_intrinsic (df0 : DataFrame) (e : bool) :
  let self := __init__ df0 e in
  Forall (fun b =>
    forall (m a f : R) (x_ext : option R) (ext_table : option bool),
      mag_call self b m a f None None x_ext ext_table = _mag_call self b m a f)
    (bands self).
Proof.
  intros self. apply Forall_forall. intros b Hb m a f x_ext ext_table.
  rewrite (mag_call_fn self b e m a f None None x_ext ext_table
             (init_mag_get df0 e e b Hb)).
  cbn [from_option]. unfold Datatypes.id.
  rewrite extinction_A_zero.
  replace (distance_modulus 10) with (Num 0).
  2:{ unfold distance_modulus. rewrite log10_10. cbn. f_equal. lra. }
  destruct (_mag_call self b m a f) as [v|err]; [|reflexivity].
  rewrite Ok_bind, !vadd_0. reflexivity.
Qed.

(** X19: for a positive distance d, the magnitude at distance 10 d is the
    magnitude at distance d plus 5. *)
Theorem ten_times_farther_is_five_magnitudes (df0 : DataFrame) (e : bool)
  (d : R) :
  (0 < d)%R ->
  let self := __init__ df0 e in
  Forall (fun b =>
    forall (m a f : R) (AV x_ext : option R) (ext_table : option bool),
      mag_call self b m a f (Some (10 * d)%R) AV x_ext ext_table
      = (v ← mag_call self b m a f (Some d) AV x_ext ext_table;
         Ok (vadd v (Num 5))))
    (bands self).
Proof.
  intros Hd self. apply Forall_forall. intros b Hb m a f AV x_ext ext_table.
  rewrite !(mag_call_fn self b e m a f _ AV x_ext ext_table
              (init_mag_get df0 e e b Hb)).
  cbn [from_option]. unfold Datatypes.id.
  rewrite !distance_modulus_pos by lra.
  destruct (_mag_call self b m a f) as [v|err]; [|reflexivity].
  rewrite !Ok_bind, !vadd_vadd. do 3 f_equal.
  assert (0 < ln 10)%R. { rewrite <- ln_1. apply ln_increasing; lra. }
  rewrite ln_mult by lra. field. lra.
Qed.

(** X20: at a negative distance the magnitude is NaN in every element. *)
Theorem negative_distance_is_nan (df0 : DataFrame) (e : bool) (d : R) :
  (d < 0)%R ->
  let self := __init__ df0 e in
  Forall (fun b =>
    forall (m a f : R) (AV x_ext : option R) (ext_table : option bool),
      mag_call self b m a f (Some d) AV x_ext ext_table
      = (v ← _mag_call self b m a f; Ok (vmap (fun _ => NaN) v)))
    (bands self).
Proof.
  intros Hd self. apply Forall_forall. intros b Hb m a f AV x_ext ext_table.
  rewrite (mag_call_fn self b e m a f _ AV x_ext ext_table
             (init_mag_get df0 e e b Hb)).
  cbn [from_option]. unfold Datatypes.id.
  rewrite distance_modulus_neg by exact Hd.
  destruct (_mag_call self b m a f) as [v|err]; [|reflexivity].
  rewrite !Ok_bind, vadd_NaN, vadd_all_NaN. reflexivity.
Qed.

(** X21: the intrinsic term of every band interpolates column 11, so with the
    default AV any two bands return the same magnitude. *)
Theorem bands_agree_without_extinction (df0 : DataFrame) (e : bool) :
  let self := __init__ df0 e in
  Forall (fun b => Forall (fun b' =>
    forall (m a f : R) (distance x_ext : option R) (ext_table : option bool),
      _mag_call self b m a f = interp_value self m a f 11
      /\ mag_call self b m a f distance None x_ext ext_table
         = mag_call self b' m a f distance None x_ext ext_table)
    (bands self)) (bands self).
Proof.
  intros self. apply Forall_forall. intros b Hb.
  apply Forall_forall. intros b' Hb' m a f distance x_ext ext_table.
  pose proof (mag_lambdas_read_last_column df0 e e) as Hall.
  cbn zeta in Hall. rewrite Forall_forall in Hall.
  assert (H11 : forall b0, b0 ∈ bands self ->
                  _mag_call self b0 m a f = interp_value self m a f 11).
  { intros b0 Hb0. apply (Hall b0 Hb0). }
  split; [apply H11, Hb|].
  rewrite (mag_call_fn self b e m a f distance None x_ext ext_table
             (init_mag_get df0 e e b Hb)).
  rewrite (mag_call_fn self b' e m a f distance None x_ext ext_table
             (init_mag_get df0 e e b' Hb')).
  cbn [from_option]. unfold Datatypes.id.
  rewrite !extinction_A_zero, (H11 b Hb), (H11 b' Hb'). reflexivity.
Qed.

End photometry.

(** X22: whatever the items and their order, every lambda of the comprehension
    reads the column of the last item, and the comprehension leaves the cells
    that were there before as they are. *)
Theorem comprehension_lambdas_read_the_last_item
  (items : list (string * nat)) (heap : list (option nat)) (b : string)
  (lam : mag_lambda) :
  dict_get (mag_comprehension items heap).2 b = Ok lam ->
  (mag_comprehension items heap).1 !! free_i lam = Some (snd <$> last items)
  /\ (forall c v, heap !! c = Some v ->
                  (mag_comprehension items heap).1 !! c = Some v).
Proof.
  intros Hget. destruct (mag_comprehension_shares_cell items heap)
    as (Hlen & Hcell & Hall).
  split.
  - apply dict_get_elem in Hget. rewrite Forall_forall in Hall.
    pose proof (Hall _ Hget) as Hfree. cbn in Hfree. rewrite Hfree.
    exact Hcell.
  - clear Hget Hlen Hcell Hall. intros c v Hc.
    pose proof (lookup_lt_Some _ _ _ Hc) as Hlt.
    induction items as [|item items IH] using rev_ind.
    + cbn. rewrite lookup_app_l by exact Hlt. exact Hc.
    + rewrite mag_comprehension_snoc. unfold mag_comprehension_step. cbn [fst].
      rewrite list_lookup_insert_ne by lia. exact IH.
Qed.

(** X22 on two items, g before u. *)
Lemma comprehension_lambdas_read_the_last_item_example :
  exists lam : mag_lambda,
    dict_get (mag_comprehension [("g", 8); ("u", 7)]%string []).2 "g" = Ok lam
    /\ (mag_comprehension [("g", 8); ("u", 7)]%string []).1 !! free_i lam
       = Some (Some 7).
Proof.
  exists {| free_i := 0 |}.
  split; [reflexivity|].
  exact (proj1 (comprehension_lambdas_read_the_last_item
                  [("g", 8); ("u", 7)]%string [] "g" {| free_i := 0 |} eq_refl)).
Defined.

(** X17 at band J. *)
Lemma unknown_band_is_a_key_error_demo :
  ("J"%string ∉ bands (__init__ df_demo false))
  /\ mag_call (extinction_module := extinction_demo)
       (utils_module := utils_icol) (__init__ df_demo false) "J" 1 9 0
       None None None None
     = Raise KeyError.
Proof.
  assert (HJ : "J"%string ∉ bands (__init__ df_demo false)).
  { intros H. cbn in H.
    repeat (apply elem_of_cons in H as [H|H]; [discriminate|]).
    inversion H. }
  split; [exact HJ|].
  exact (unknown_band_is_a_key_error (extinction_module := extinction_demo)
           (utils_module := utils_icol) df_demo false "J" 1 9 0
           None None None None HJ).
Defined.

(** X19 at d = 1. *)
Lemma ten_times_farther_is_five_magnitudes_demo :
  (0 < 1)%R
  /\ mag_call (extinction_module := extinction_demo)
       (utils_module := utils_icol) (__init__ df_demo false) "g" 1 9 0
       (Some (10 * 1)%R) None None None
     = (v ← mag_call (extinction_module := extinction_demo)
              (utils_module := utils_icol) (__init__ df_demo false) "g" 1 9 0
              (Some 1%R) None None None;
        Ok (vadd v (Num 5))).
Proof.
  split; [lra|].
  pose proof (ten_times_farther_is_five_magnitudes
                (extinction_module := extinction_demo)
                (utils_module := utils_icol) df_demo false 1 ltac:(lra))
    as Hall.
  cbn zeta in Hall. rewrite Forall_forall in Hall.
  exact (Hall "g"%string ltac:(right; left) 1%R 9%R 0%R None None None).
Defined.

(** X20 at distance -1. *)
Lemma negative_distance_is_nan_demo :
  (-1 < 0)%R
  /\ mag_call (extinction_module := extinction_demo)
       (utils_module := utils_icol) (__init__ df_demo false) "g" 1 9 0
       (Some (-1)%R) None None None
     = Ok (Scalar NaN).
Proof.
  split; [lra|].
  pose proof (negative_distance_is_nan
                (extinction_module := extinction_demo)
                (utils_module := utils_icol) df_demo false (-1) ltac:(lra))
    as Hall.
  cbn zeta in Hall. rewrite Forall_forall in Hall.
  rewrite (Hall "g"%string ltac:(right; left) 1%R 9%R 0%R None None None).
  change (_mag_call (utils_module := utils_icol) (__init__ df_demo false)
            "g" 1 9 0)
    with (interp_value (utils_module := utils_icol) (__init__ df_demo false)
            1 9 0 11).
  rewrite interp_value_df_demo. reflexivity.
Defined.
